(** * mosn: the stream-layer contracts (package [types]) and the TCP
    listener (package [network])

    The development has three parts.
    - [Types]: the declarations of the stream layer: the string-typed
      enumerations with their constants, and the interface declarations
      as a table of method signatures.
    - [Engine]: the per-direction frame discipline of a stream, which the
      stream layer only declares (interfaces) and does not implement.
    - [Network]: [pkg/network/listener.go], as a state-and-trace model of
      the listener object, the operating system it talks to, the callback
      it notifies and the goroutines it starts. *)

From Stdlib Require Import String List Bool Arith NArith Lia.
Import ListNotations.
Open Scope string_scope.

(* ================================================================== *)
(** * Package [types] *)
(* ================================================================== *)

Module Types.

(** ** String-typed enumerations

    Go declares each of them as [type T string] followed by a [const]
    block; a declared constant is an identifier with a string value. *)

Definition StreamResetReason := string.

Definition StreamConnectionTermination : StreamResetReason := "ConnectionTermination".
Definition StreamConnectionFailed      : StreamResetReason := "ConnectionFailed".
Definition StreamLocalReset            : StreamResetReason := "StreamLocalReset".
Definition StreamOverflow              : StreamResetReason := "StreamOverflow".
Definition StreamRemoteReset           : StreamResetReason := "StreamRemoteReset".

(** The [const] block of [StreamResetReason]: identifier and value, in
    declaration order. *)
Definition StreamResetReason_consts : list (string * StreamResetReason) :=
  [ ("StreamConnectionTermination", StreamConnectionTermination);
    ("StreamConnectionFailed",      StreamConnectionFailed);
    ("StreamLocalReset",            StreamLocalReset);
    ("StreamOverflow",              StreamOverflow);
    ("StreamRemoteReset",           StreamRemoteReset) ].

Definition FilterHeadersStatus := string.

Definition FilterHeadersStatusContinue      : FilterHeadersStatus := "Continue".
Definition FilterHeadersStatusStopIteration : FilterHeadersStatus := "StopIteration".

Definition FilterHeadersStatus_consts : list (string * FilterHeadersStatus) :=
  [ ("FilterHeadersStatusContinue",      FilterHeadersStatusContinue);
    ("FilterHeadersStatusStopIteration", FilterHeadersStatusStopIteration) ].

Definition FilterDataStatus := string.

Definition FilterDataStatusContinue                  : FilterDataStatus := "Continue".
Definition FilterDataStatusStopIterationAndBuffer    : FilterDataStatus := "StopIterationAndBuffer".
Definition FilterDataStatusStopIterationAndWatermark : FilterDataStatus := "StopIterationAndWatermark".
Definition FilterDataStatusStopIterationNoBuffer     : FilterDataStatus := "StopIterationNoBuffer".

Definition FilterDataStatus_consts : list (string * FilterDataStatus) :=
  [ ("FilterDataStatusContinue",                  FilterDataStatusContinue);
    ("FilterDataStatusStopIterationAndBuffer",    FilterDataStatusStopIterationAndBuffer);
    ("FilterDataStatusStopIterationAndWatermark", FilterDataStatusStopIterationAndWatermark);
    ("FilterDataStatusStopIterationNoBuffer",     FilterDataStatusStopIterationNoBuffer) ].

Definition FilterTrailersStatus := string.

Definition FilterTrailersStatusContinue      : FilterTrailersStatus := "Continue".
Definition FilterTrailersStatusStopIteration : FilterTrailersStatus := "StopIteration".

Definition FilterTrailersStatus_consts : list (string * FilterTrailersStatus) :=
  [ ("FilterTrailersStatusContinue",      FilterTrailersStatusContinue);
    ("FilterTrailersStatusStopIteration", FilterTrailersStatusStopIteration) ].

(** Every [type T string] of the file with its constants, in source
    order. *)
Definition string_enums : list (string * list (string * string)) :=
  [ ("StreamResetReason",    StreamResetReason_consts);
    ("FilterHeadersStatus",  FilterHeadersStatus_consts);
    ("FilterDataStatus",     FilterDataStatus_consts);
    ("FilterTrailersStatus", FilterTrailersStatus_consts) ].

(** The enumerations that carry a filter's verdict: the ones a filter
    method returns (see [StreamEncoderFilter] and [StreamDecoderFilter]
    below); their names start with [Filter]. *)
Definition filter_status_enums : list (string * list (string * string)) :=
  filter (fun e => prefix "Filter" (fst e)) string_enums.

(** The values of a [const] block. *)
Definition values (cs : list (string * string)) : list string := map snd cs.

(** The identifiers of a [const] block. *)
Definition idents (cs : list (string * string)) : list string := map fst cs.

(** A constant's variant name: its identifier without the type's prefix
    ([FilterDataStatusContinue] is the variant [Continue] of
    [FilterDataStatus]). *)
Definition strip_prefix (p s : string) : string :=
  if prefix p s then substring (String.length p) (String.length s - String.length p) s else s.

(** The variant names the design text gives for [StreamResetReason]. *)
Definition spec_StreamResetReason_variants : list string :=
  [ "ConnectionTermination"; "ConnectionFailed"; "LocalReset"; "Overflow";
    "RemoteReset" ].

(** ** Interface declarations

    An interface is a list of embedded interfaces and a list of method
    signatures.  Types are kept as written in the source. *)

Inductive gotype : Type :=
| TString                      (* string *)
| TBool                        (* bool *)
| TUint32                      (* uint32 *)
| TError                       (* error *)
| TEmptyInterface              (* interface{} *)
| TMapStringString             (* map[string]string *)
| TContext                     (* context.Context *)
| TNamed (n : string).         (* a type of package types *)

Definition gotype_eqb (a b : gotype) : bool :=
  match a, b with
  | TString, TString | TBool, TBool | TUint32, TUint32 | TError, TError
  | TEmptyInterface, TEmptyInterface | TMapStringString, TMapStringString
  | TContext, TContext => true
  | TNamed x, TNamed y => String.eqb x y
  | _, _ => false
  end.

Record method : Type := Method {
  m_name    : string;
  m_params  : list (string * gotype);
  m_results : list gotype
}.

Record interface : Type := Interface {
  i_name    : string;
  i_embeds  : list string;
  i_methods : list method
}.

Definition Stream : interface :=
  Interface "Stream" []
    [ Method "AddEventListener" [("streamEventListener", TNamed "StreamEventListener")] [];
      Method "RemoveEventListener" [("streamEventListener", TNamed "StreamEventListener")] [];
      Method "ResetStream" [("reason", TNamed "StreamResetReason")] [];
      Method "ReadDisable" [("disable", TBool)] [] ].

Definition StreamEventListener : interface :=
  Interface "StreamEventListener" []
    [ Method "OnResetStream" [("reason", TNamed "StreamResetReason")] [];
      Method "OnAboveWriteBufferHighWatermark" [] [];
      Method "OnBelowWriteBufferLowWatermark" [] [] ].

Definition StreamEncoder : interface :=
  Interface "StreamEncoder" []
    [ Method "EncodeHeaders" [("headers", TEmptyInterface); ("endStream", TBool)] [TError];
      Method "EncodeData" [("data", TNamed "IoBuffer"); ("endStream", TBool)] [TError];
      Method "EncodeTrailers" [("trailers", TMapStringString)] [TError];
      Method "GetStream" [] [TNamed "Stream"] ].

Definition StreamDecoder : interface :=
  Interface "StreamDecoder" []
    [ Method "OnDecodeHeaders" [("headers", TMapStringString); ("endStream", TBool)] [];
      Method "OnDecodeData" [("data", TNamed "IoBuffer"); ("endStream", TBool)] [];
      Method "OnDecodeTrailers" [("trailers", TMapStringString)] [] ].

Definition StreamConnection : interface :=
  Interface "StreamConnection" []
    [ Method "Dispatch" [("buffer", TNamed "IoBuffer")] [];
      Method "Protocol" [] [TNamed "Protocol"];
      Method "GoAway" [] [];
      Method "OnUnderlyingConnectionAboveWriteBufferHighWatermark" [] [];
      Method "OnUnderlyingConnectionBelowWriteBufferLowWatermark" [] [] ].

Definition ServerStreamConnection : interface :=
  Interface "ServerStreamConnection" ["StreamConnection"] [].

Definition ClientStreamConnection : interface :=
  Interface "ClientStreamConnection" ["StreamConnection"]
    [ Method "NewStream"
        [("streamId", TString); ("responseDecoder", TNamed "StreamDecoder")]
        [TNamed "StreamEncoder"] ].

Definition StreamConnectionEventListener : interface :=
  Interface "StreamConnectionEventListener" []
    [ Method "OnGoAway" [] [] ].

Definition ServerStreamConnectionEventListener : interface :=
  Interface "ServerStreamConnectionEventListener" ["StreamConnectionEventListener"]
    [ Method "NewStream"
        [("streamId", TString); ("responseEncoder", TNamed "StreamEncoder")]
        [TNamed "StreamDecoder"] ].

Definition StreamFilterBase : interface :=
  Interface "StreamFilterBase" []
    [ Method "OnDestroy" [] [] ].

Definition StreamFilterCallbacks : interface :=
  Interface "StreamFilterCallbacks" []
    [ Method "Connection" [] [TNamed "Connection"];
      Method "ResetStream" [] [];
      Method "Route" [] [TNamed "Route"];
      Method "StreamId" [] [TString];
      Method "RequestInfo" [] [TNamed "RequestInfo"] ].

Definition StreamEncoderFilter : interface :=
  Interface "StreamEncoderFilter" ["StreamFilterBase"]
    [ Method "EncodeHeaders" [("headers", TEmptyInterface); ("endStream", TBool)]
        [TNamed "FilterHeadersStatus"];
      Method "EncodeData" [("buf", TNamed "IoBuffer"); ("endStream", TBool)]
        [TNamed "FilterDataStatus"];
      Method "EncodeTrailers" [("trailers", TMapStringString)]
        [TNamed "FilterTrailersStatus"];
      Method "SetEncoderFilterCallbacks" [("cb", TNamed "StreamEncoderFilterCallbacks")] [] ].

Definition StreamEncoderFilterCallbacks : interface :=
  Interface "StreamEncoderFilterCallbacks" ["StreamFilterCallbacks"]
    [ Method "ContinueEncoding" [] [];
      Method "EncodingBuffer" [] [TNamed "IoBuffer"];
      Method "AddEncodedData" [("buf", TNamed "IoBuffer"); ("streamingFilter", TBool)] [];
      Method "OnEncoderFilterAboveWriteBufferHighWatermark" [] [];
      Method "OnEncoderFilterBelowWriteBufferLowWatermark" [] [];
      Method "SetEncoderBufferLimit" [("limit", TUint32)] [];
      Method "EncoderBufferLimit" [] [TUint32] ].

Definition StreamDecoderFilter : interface :=
  Interface "StreamDecoderFilter" ["StreamFilterBase"]
    [ Method "DecodeHeaders" [("headers", TMapStringString); ("endStream", TBool)]
        [TNamed "FilterHeadersStatus"];
      Method "DecodeData" [("buf", TNamed "IoBuffer"); ("endStream", TBool)]
        [TNamed "FilterDataStatus"];
      Method "DecodeTrailers" [("trailers", TMapStringString)]
        [TNamed "FilterTrailersStatus"];
      Method "SetDecoderFilterCallbacks" [("cb", TNamed "StreamDecoderFilterCallbacks")] [] ].

Definition StreamDecoderFilterCallbacks : interface :=
  Interface "StreamDecoderFilterCallbacks" ["StreamFilterCallbacks"]
    [ Method "ContinueDecoding" [] [];
      Method "DecodingBuffer" [] [TNamed "IoBuffer"];
      Method "AddDecodedData" [("buf", TNamed "IoBuffer"); ("streamingFilter", TBool)] [];
      Method "EncodeHeaders" [("headers", TEmptyInterface); ("endStream", TBool)] [];
      Method "EncodeData" [("buf", TNamed "IoBuffer"); ("endStream", TBool)] [];
      Method "EncodeTrailers" [("trailers", TMapStringString)] [];
      Method "OnDecoderFilterAboveWriteBufferHighWatermark" [] [];
      Method "OnDecoderFilterBelowWriteBufferLowWatermark" [] [];
      Method "AddDownstreamWatermarkCallbacks" [("cb", TNamed "DownstreamWatermarkEventListener")] [];
      Method "RemoveDownstreamWatermarkCallbacks" [("cb", TNamed "DownstreamWatermarkEventListener")] [];
      Method "SetDecoderBufferLimit" [("limit", TUint32)] [];
      Method "DecoderBufferLimit" [] [TUint32] ].

Definition DownstreamWatermarkEventListener : interface :=
  Interface "DownstreamWatermarkEventListener" []
    [ Method "OnAboveWriteBufferHighWatermark" [] [];
      Method "OnBelowWriteBufferLowWatermark" [] [] ].

Definition StreamFilterChainFactory : interface :=
  Interface "StreamFilterChainFactory" []
    [ Method "CreateFilterChain"
        [("context", TContext); ("callbacks", TNamed "FilterChainFactoryCallbacks")] [] ].

Definition FilterChainFactoryCallbacks : interface :=
  Interface "FilterChainFactoryCallbacks" []
    [ Method "AddStreamDecoderFilter" [("filter", TNamed "StreamDecoderFilter")] [];
      Method "AddStreamEncoderFilter" [("filter", TNamed "StreamEncoderFilter")] [] ].

(** Every interface of the file, in source order. *)
Definition interfaces : list interface :=
  [ Stream; StreamEventListener; StreamEncoder; StreamDecoder;
    StreamConnection; ServerStreamConnection; ClientStreamConnection;
    StreamConnectionEventListener; ServerStreamConnectionEventListener;
    StreamFilterBase; StreamFilterCallbacks; StreamEncoderFilter;
    StreamEncoderFilterCallbacks; StreamDecoderFilter;
    StreamDecoderFilterCallbacks; DownstreamWatermarkEventListener;
    StreamFilterChainFactory; FilterChainFactoryCallbacks ].

(** The method of an interface's own method list with a given name. *)
Definition lookup_method (i : interface) (n : string) : option method :=
  find (fun m => String.eqb (m_name m) n) (i_methods i).

(** A signature without parameter names: what a caller supplies and what
    it receives. *)
Definition param_types (m : method) : list gotype := map snd (m_params m).

(** Exchanging the two roles of a stream in a type. *)
Definition swap_role (t : gotype) : gotype :=
  match t with
  | TNamed n =>
      if String.eqb n "StreamEncoder" then TNamed "StreamDecoder"
      else if String.eqb n "StreamDecoder" then TNamed "StreamEncoder"
      else t
  | _ => t
  end.

(** The methods of an interface that are the encode calls, and the
    callbacks of the decode path. *)
Definition encode_method_names : list string :=
  [ "EncodeHeaders"; "EncodeData"; "EncodeTrailers" ].

Definition decode_callback_names : list string :=
  [ "OnDecodeHeaders"; "OnDecodeData"; "OnDecodeTrailers" ].

Definition named_in (ns : list string) (m : method) : bool :=
  existsb (String.eqb (m_name m)) ns.

(** Whether a method can carry a failure to the one it is called on: a
    parameter of type [error] or [StreamResetReason]. *)
Definition carries_failure (m : method) : bool :=
  existsb (fun t => gotype_eqb t TError || gotype_eqb t (TNamed "StreamResetReason"))
          (param_types m).

(** Notifications: the methods named [On...]. *)
Definition is_notification (m : method) : bool := prefix "On" (m_name m).

(** The notifications of the whole file that can carry a failure, each
    with the interface that declares it. *)
Definition failure_notifications : list (string * string) :=
  flat_map (fun i =>
              map (fun m => (i_name i, m_name m))
                  (filter (fun m => is_notification m && carries_failure m)
                          (i_methods i)))
           interfaces.

(** ** Method sets

    An interface's method set is its own methods and those of the
    interfaces it embeds.  A value of interface type [i] can be used as
    a [j] when every method of [j] is in the method set of [i] with the
    same parameter and result types (parameter names do not count); no
    type can implement both [i] and [j] when they have a method of the
    same name with different types. *)

Definition find_interface (n : string) : option interface :=
  find (fun i => String.eqb (i_name i) n) interfaces.

Fixpoint method_set_upto (depth : nat) (i : interface) : list method :=
  (i_methods i ++
   match depth with
   | 0 => []
   | S d =>
       flat_map (fun n => match find_interface n with
                          | Some j => method_set_upto d j
                          | None => []
                          end)
                (i_embeds i)
   end)%list.

Definition method_set (i : interface) : list method :=
  method_set_upto (List.length interfaces) i.

Fixpoint types_eqb (a b : list gotype) : bool :=
  match a, b with
  | [], [] => true
  | x :: a', y :: b' => gotype_eqb x y && types_eqb a' b'
  | _, _ => false
  end.

Definition same_signature (a b : method) : bool :=
  String.eqb (m_name a) (m_name b)
  && types_eqb (param_types a) (param_types b)
  && types_eqb (m_results a) (m_results b).

Definition satisfies (i j : interface) : bool :=
  forallb (fun m => existsb (same_signature m) (method_set i)) (method_set j).

Definition conflicting (i j : interface) : bool :=
  existsb (fun m =>
             existsb (fun m' => String.eqb (m_name m) (m_name m')
                                && negb (same_signature m m'))
                     (method_set j))
          (method_set i).

(** The ordered pairs of different interfaces of the file. *)
Definition interface_pairs : list (interface * interface) :=
  filter (fun p => negb (String.eqb (i_name (fst p)) (i_name (snd p))))
         (flat_map (fun i => map (fun j => (i, j)) interfaces) interfaces).

Definition names_of (ps : list (interface * interface)) : list (string * string) :=
  map (fun p => (i_name (fst p), i_name (snd p))) ps.

End Types.

(* ================================================================== *)
(** * The frame discipline of one stream *)
(* ================================================================== *)

Module Engine.

Import Types.

Definition IoBuffer := string.
Definition HeaderMap := list (string * string).

(** The frame triad of one direction. *)
Inductive frame : Type :=
| Headers (h : HeaderMap) (endStream : bool)
| Data (d : IoBuffer) (endStream : bool)
| Trailers (t : HeaderMap).

(** Whether a frame signals the end of its direction; trailers do so
    implicitly. *)
Definition ends (f : frame) : bool :=
  match f with
  | Headers _ e => e
  | Data _ e => e
  | Trailers _ => true
  end.

Inductive direction : Type := Encode | Decode.

(** Where one direction stands in its triad. *)
Inductive phase : Type :=
| AwaitHeaders      (* nothing passed yet *)
| Flowing           (* headers passed, data or trailers may follow *)
| Ended.            (* endStream was signaled *)

(** The contract violations and the closed condition of a reset
    stream. *)
Inductive violation : Type :=
| StreamClosed            (* the stream was reset *)
| AfterEndStream          (* a frame after endStream *)
| FrameOrder.             (* data or trailers before headers, headers twice *)

(** Modelled from the spec: the order of the frame triad, which no code
    of the source enforces: headers, then data frames, then optional
    trailers; [endStream] and trailers end the direction. *)
Definition advance (p : phase) (f : frame) : option phase :=
  match p, f with
  | AwaitHeaders, Headers _ e => Some (if e then Ended else Flowing)
  | Flowing, Data _ e => Some (if e then Ended else Flowing)
  | Flowing, Trailers _ => Some Ended
  | _, _ => None
  end.

(** One stream: the phase of each direction, the reset state, what was
    handed to the codec and what was delivered to the decoder. *)
Record stream : Type := Stream {
  encoding  : phase;
  decoding  : phase;
  reset     : option StreamResetReason;
  wire      : list frame;
  delivered : list frame
}.

Definition new_stream : stream := Stream AwaitHeaders AwaitHeaders None [] [].

Definition phase_of (d : direction) (s : stream) : phase :=
  match d with Encode => encoding s | Decode => decoding s end.

(** The frames that passed in a direction. *)
Definition passed (d : direction) (s : stream) : list frame :=
  match d with Encode => wire s | Decode => delivered s end.

Definition pass (d : direction) (p : phase) (f : frame) (s : stream) : stream :=
  match d with
  | Encode => Stream p (decoding s) (reset s) (wire s ++ [f]) (delivered s)
  | Decode => Stream (encoding s) p (reset s) (wire s) (delivered s ++ [f])
  end.

(** Modelled from the spec: the engine behind [StreamEncoder] and the
    delivery of decoded frames to a [StreamDecoder] (the source holds the
    interface declarations only).  A frame offered to a direction passes
    when the stream is not reset, the direction has not ended and the
    frame is in order; otherwise it is refused with the violation and the
    stream is left as it was. *)
Definition submit (d : direction) (f : frame) (s : stream)
  : option violation * stream :=
  match reset s with
  | Some _ => (Some StreamClosed, s)
  | None =>
      match phase_of d s with
      | Ended => (Some AfterEndStream, s)
      | p =>
          match advance p f with
          | Some p' => (None, pass d p' f s)
          | None => (Some FrameOrder, s)
          end
      end
  end.

(** The three encoder methods: the returned error is the violation. *)
Definition EncodeHeaders (h : HeaderMap) (endStream : bool) (s : stream) :=
  submit Encode (Headers h endStream) s.

Definition EncodeData (d : IoBuffer) (endStream : bool) (s : stream) :=
  submit Encode (Data d endStream) s.

Definition EncodeTrailers (t : HeaderMap) (s : stream) :=
  submit Encode (Trailers t) s.

(** The decoder callbacks, as the connection invokes them. *)
Inductive callback : Type :=
| OnDecodeHeaders (h : HeaderMap) (endStream : bool)
| OnDecodeData (d : IoBuffer) (endStream : bool)
| OnDecodeTrailers (t : HeaderMap).

Definition callback_of (f : frame) : callback :=
  match f with
  | Headers h e => OnDecodeHeaders h e
  | Data d e => OnDecodeData d e
  | Trailers t => OnDecodeTrailers t
  end.

(** Modelled from the spec: the connection's delivery of decoded frames
    to a [StreamDecoder], absent from the source.  A decoded frame
    reaches the decoder as its callback when it passes, and as no
    callback at all when it is refused. *)
Definition deliver (f : frame) (s : stream) : list callback * stream :=
  match submit Decode f s with
  | (None, s') => ([callback_of f], s')
  | (Some _, s') => ([], s')
  end.

(** Modelled from the spec: [ResetStream], declared in [Stream] and
    implemented nowhere in the source: terminal; a second reset changes
    nothing. *)
Definition ResetStream (r : StreamResetReason) (s : stream) : stream :=
  match reset s with
  | Some _ => s
  | None => Stream (encoding s) (decoding s) (Some r) (wire s) (delivered s)
  end.

(** What can happen to a stream, one after the other. *)
Inductive op : Type :=
| OpSubmit (d : direction) (f : frame)
| OpReset (r : StreamResetReason).

Definition step (s : stream) (o : op) : stream :=
  match o with
  | OpSubmit d f => snd (submit d f s)
  | OpReset r => ResetStream r s
  end.

Definition run (ops : list op) (s : stream) : stream := fold_left step ops s.

(** A direction is shut when the stream is reset or the direction has
    ended. *)
Definition shut (d : direction) (s : stream) : Prop :=
  reset s <> None \/ phase_of d s = Ended.

End Engine.

(* ================================================================== *)
(** * Package [network]: the listener *)
(* ================================================================== *)

(** ** What the listener uses of Go's [net] package *)

Module net.

(** A raw connection, by identity. *)
Definition Conn := nat.

Record TCPAddr : Type := { IP : string; Port : nat }.

(** A value of the interface [net.Addr]: a [*net.TCPAddr] (the pointer
    may be nil) or an address of another kind. *)
Inductive AddrValue : Type :=
| TCPAddrPtr (a : option TCPAddr)
| OtherAddr (network address : string).

(** [net.Addr]; [None] is the nil interface. *)
Definition Addr := option AddrValue.

(** A listening socket, by descriptor. *)
Record TCPListener : Type := { fd : nat }.

Definition TCPListener_eqb (a b : TCPListener) : bool := Nat.eqb (fd a) (fd b).

(** Go's [error] values as the listener tells them apart: [*net.OpError],
    another implementation of [net.Error], or any other error. *)
Inductive error : Type :=
| OpError (msg : string) (timeout temporary : bool)
| NetError (msg : string) (timeout temporary : bool)
| PlainError (msg : string).

Definition Error (e : error) : string :=
  match e with
  | OpError m _ _ | NetError m _ _ | PlainError m => m
  end.

(** Whether the assertion of [err] to [net.Error] succeeds. *)
Definition is_net_Error (e : error) : bool :=
  match e with PlainError _ => false | _ => true end.

(** Whether the assertion of [err] to a pointer to [net.OpError]
    succeeds. *)
Definition is_OpError (e : error) : bool :=
  match e with OpError _ _ _ => true | _ => false end.

Definition Timeout (e : error) : bool :=
  match e with
  | OpError _ t _ | NetError _ t _ => t
  | PlainError _ => false
  end.

Definition Temporary (e : error) : bool :=
  match e with
  | OpError _ _ t | NetError _ _ t => t
  | PlainError _ => false
  end.

(** [syscall.EINVAL]: what the methods of a nil [*TCPListener] return.
    An errno has [Timeout] and [Temporary], both false here. *)
Definition EINVAL : error := NetError "invalid argument" false false.

(** What [Accept] returns once the deadline has passed. *)
Definition ErrDeadline : error := OpError "i/o timeout" true true.

(** What a closed listener returns. *)
Definition ErrClosed : error :=
  OpError "use of closed network connection" false false.

End net.

(** ** The configuration a listener is built from

    [v2.ListenerConfig] is declared outside the listener's file; the
    fields are the ones [NewListener] reads, with the types of the
    listener fields they are stored in. *)

Module v2.

Record ListenerConfig : Type := {
  Name                                  : string;
  Addr                                  : net.Addr;
  BindToPort                            : bool;
  ListenerTag                           : N;          (* uint64 *)
  PerConnBufferLimitBytes               : N;          (* uint32 *)
  HandOffRestoredDestinationConnections : bool;
  InheritListener                       : option net.TCPListener
}.

End v2.

Module Network.

(** ** The callback

    [types.ListenerEventListener] is code outside the listener.  A call
    is visible as an event; it returns or panics.  [Some v] is the value
    it panics with. *)
Record ListenerEventListener : Type := {
  cb_id    : nat;
  OnAccept : net.Conn -> bool -> option string;
  OnClose  : option string
}.

(** ** The listener object *)

Record listener : Type := mkListener {
  name                                  : string;
  localAddress                          : net.Addr;
  bindToPort                            : bool;
  listenerTag                           : N;
  perConnBufferLimitBytes               : N;
  handOffRestoredDestinationConnections : bool;
  cb                                    : option ListenerEventListener;
  rawl                                  : option net.TCPListener
}.

Definition set_rawl (r : option net.TCPListener) (l : listener) : listener :=
  mkListener (name l) (localAddress l) (bindToPort l) (listenerTag l)
             (perConnBufferLimitBytes l)
             (handOffRestoredDestinationConnections l) (cb l) r.

Definition set_cb (c : option ListenerEventListener) (l : listener) : listener :=
  mkListener (name l) (localAddress l) (bindToPort l) (listenerTag l)
             (perConnBufferLimitBytes l)
             (handOffRestoredDestinationConnections l) c (rawl l).

(** [NewListener], for a non-nil configuration (with a nil pointer the
    first field read panics and no listener exists). *)
Definition NewListener (lc : v2.ListenerConfig) : listener :=
  let l := mkListener (v2.Name lc) (v2.Addr lc) (v2.BindToPort lc)
                      (v2.ListenerTag lc) (v2.PerConnBufferLimitBytes lc)
                      (v2.HandOffRestoredDestinationConnections lc)
                      None None in
  match v2.InheritListener lc with
  | Some r => set_rawl (Some r) l
  | None => l
  end.

(** ** The operating system

    Its answers are given in advance: what [net.ListenTCP] returns for an
    address, what the successive [Accept] calls on a live socket return
    (with none left, [Accept] waits forever), what closing and
    duplicating a socket return.  It remembers which sockets were closed
    and whose deadline has passed. *)
Record World : Type := mkWorld {
  listening : option net.TCPAddr -> net.TCPListener + net.error;
  incoming  : list (net.Conn + net.error);
  closing   : net.TCPListener -> option net.error;
  files     : net.TCPListener -> nat + net.error;
  expired   : list net.TCPListener;
  closed    : list net.TCPListener
}.

Definition is_in (r : net.TCPListener) (rs : list net.TCPListener) : bool :=
  existsb (net.TCPListener_eqb r) rs.

(** ** Goroutines and events *)

(** The one kind of goroutine the listener starts: the closure of
    [accept], which holds the accepted connection and the listener. *)
Inductive goroutine : Type :=
| GoOnAccept (rawc : net.Conn).

Inductive event : Type :=
| EvListen                                   (* l.listen is entered *)
| EvListenTCP (a : option net.TCPAddr)       (* net.ListenTCP("tcp", a) *)
| EvAccept (r : option net.TCPListener)      (* r.Accept() *)
| EvAccepted (rawc : net.Conn)               (* ... returned a connection *)
| EvGo (g : goroutine)                       (* go func() { ... }() *)
| EvOnAccept (id : nat) (rawc : net.Conn) (handOff : bool)
| EvOnClose (id : nat)
| EvRawClose (r : option net.TCPListener)    (* r.Close() *)
| EvSetDeadline (r : option net.TCPListener) (* r.SetDeadline(time.Now()) *)
| EvFile (r : option net.TCPListener)        (* r.File() *)
| EvLog (msg : string)                       (* log.DefaultLogger.Println *)
| EvPrint (msg : string)                     (* fmt.Printf, fmt.Println *)
| EvPrintStack.                              (* debug.PrintStack *)

(** ** The system: the listener object, the operating system and the
    goroutines that were started and have not run yet. *)
Record Sys : Type := mkSys {
  lis     : listener;
  world   : World;
  pending : list goroutine
}.

Definition boot (lc : v2.ListenerConfig) (w : World) : Sys :=
  mkSys (NewListener lc) w [].

(** How a call ends. *)
Inductive outcome (A : Type) : Type :=
| Returned (a : A)
| Panicked (v : string)
| Blocked                 (* waits for the operating system for ever *)
| OutOfFuel.              (* still in the accept loop *)

Arguments Returned {A} a.
Arguments Panicked {A} v.
Arguments Blocked {A}.
Arguments OutOfFuel {A}.

(** A call: from a system to how it ends, the system it leaves and the
    events it caused, in order. *)
Record result (A : Type) : Type := mkResult {
  res  : outcome A;
  post : Sys;
  evs  : list event
}.

Arguments mkResult {A} res post evs.
Arguments res {A} r.
Arguments post {A} r.
Arguments evs {A} r.

Definition M (A : Type) : Type := Sys -> result A.

Definition ret {A} (a : A) : M A := fun s => mkResult (Returned a) s [].

(** How a sequence ends when its first part ends without returning
    (the first case is never used). *)
Definition stop_with {A B} (o : outcome A) : outcome B :=
  match o with
  | Returned _ => Blocked
  | Panicked v => Panicked v
  | Blocked => Blocked
  | OutOfFuel => OutOfFuel
  end.

Definition bind {A B} (c : M A) (k : A -> M B) : M B :=
  fun s =>
    let r := c s in
    match res r with
    | Returned a =>
        let r' := k a (post r) in
        mkResult (res r') (post r') (evs r ++ evs r')
    | o => mkResult (stop_with o) (post r) (evs r)
    end.

Notation "x <- c ;; k" := (bind c (fun x => k))
  (at level 61, c at next level, right associativity).
Notation "c ;;; k" := (bind c (fun _ => k))
  (at level 61, right associativity).

Definition emit (e : event) : M unit := fun s => mkResult (Returned tt) s [e].
Definition panic {A} (v : string) : M A := fun s => mkResult (Panicked v) s [].
Definition block {A} : M A := fun s => mkResult Blocked s [].
Definition out_of_fuel {A} : M A := fun s => mkResult OutOfFuel s [].
Definition get_l : M listener := fun s => mkResult (Returned (lis s)) s [].
Definition get_w : M World := fun s => mkResult (Returned (world s)) s [].
Definition put_l (l : listener) : M unit :=
  fun s => mkResult (Returned tt) (mkSys l (world s) (pending s)) [].
Definition put_w (w : World) : M unit :=
  fun s => mkResult (Returned tt) (mkSys (lis s) w (pending s)) [].
Definition go (g : goroutine) : M unit :=
  fun s => mkResult (Returned tt) (mkSys (lis s) (world s) (pending s ++ [g])) [EvGo g].

(** [defer func() { if p := recover(); p != nil { h p } }()] around [c]:
    a panic of [c] is caught and handled, and the function returns. *)
Definition recovering (c : M unit) (h : string -> M unit) : M unit :=
  fun s =>
    let r := c s in
    match res r with
    | Panicked v =>
        let r' := h v (post r) in
        mkResult (res r') (post r') (evs r ++ evs r')
    | _ => r
    end.

Definition log (msg : string) : M unit := emit (EvLog msg).

Definition nil_dereference : string :=
  "runtime error: invalid memory address or nil pointer dereference".

Definition bad_conversion : string :=
  "interface conversion: net.Addr is not *net.TCPAddr".

(** ** The raw socket's methods, answered by the operating system *)

(** [r.Accept()]. *)
Definition raw_Accept (r : option net.TCPListener) : M (net.Conn + net.error) :=
  emit (EvAccept r) ;;;
  match r with
  | None => ret (inr net.EINVAL)
  | Some t =>
      w <- get_w ;;
      if is_in t (closed w) then ret (inr net.ErrClosed)
      else if is_in t (expired w) then ret (inr net.ErrDeadline)
      else
        match incoming w with
        | [] => block
        | a :: rest =>
            put_w (mkWorld (listening w) rest (closing w) (files w)
                           (expired w) (closed w)) ;;;
            match a with
            | inl rawc => emit (EvAccepted rawc) ;;; ret a
            | inr _ => ret a
            end
        end
  end.

(** [r.Close()]. *)
Definition raw_Close (r : option net.TCPListener) : M (option net.error) :=
  emit (EvRawClose r) ;;;
  match r with
  | None => ret (Some net.EINVAL)
  | Some t =>
      w <- get_w ;;
      if is_in t (closed w) then ret (Some net.ErrClosed)
      else
        put_w (mkWorld (listening w) (incoming w) (closing w) (files w)
                       (expired w) (t :: closed w)) ;;;
        ret (closing w t)
  end.

(** [r.SetDeadline(time.Now())]; the listener drops the returned
    error. *)
Definition raw_SetDeadline_now (r : option net.TCPListener) : M (option net.error) :=
  emit (EvSetDeadline r) ;;;
  match r with
  | None => ret (Some net.EINVAL)
  | Some t =>
      w <- get_w ;;
      if is_in t (closed w) then ret (Some net.ErrClosed)
      else
        put_w (mkWorld (listening w) (incoming w) (closing w) (files w)
                       (t :: expired w) (closed w)) ;;;
        ret None
  end.

(** [r.File()] followed by [Fd()] on success. *)
Definition raw_File (r : option net.TCPListener) : M (nat + net.error) :=
  emit (EvFile r) ;;;
  match r with
  | None => ret (inr net.EINVAL)
  | Some t => w <- get_w ;; ret (files w t)
  end.

(** [net.ListenTCP("tcp", a)]. *)
Definition net_ListenTCP (a : option net.TCPAddr) : M (net.TCPListener + net.error) :=
  emit (EvListenTCP a) ;;;
  w <- get_w ;;
  ret (listening w a).

(** ** The listener's methods

    The [context.Context] argument of [Start], [Close], [listen] and
    [accept] is never read and is left out. *)

Definition Name (l : listener) : string := name l.

Definition Addr (l : listener) : net.Addr := localAddress l.

Definition ListenerTag (l : listener) : N := listenerTag l.

Definition PerConnBufferLimitBytes (l : listener) : N := perConnBufferLimitBytes l.

Definition SetListenerCallbacks (c : option ListenerEventListener) : M unit :=
  l <- get_l ;;
  put_l (set_cb c l).

(** [listen]: the address is asserted to be a [*net.TCPAddr] (a panic
    otherwise), a socket is bound and kept in [rawl]. *)
Definition listen : M (option net.error) :=
  emit EvListen ;;;
  l <- get_l ;;
  match localAddress l with
  | Some (net.TCPAddrPtr a) =>
      r <- net_ListenTCP a ;;
      match r with
      | inr err => ret (Some err)
      | inl rl =>
          l' <- get_l ;;
          put_l (set_rawl (Some rl) l') ;;;
          ret None
      end
  | _ => panic bad_conversion
  end.

(** A call of a method of the interface value [l.cb]. *)
Definition call_OnAccept (rawc : net.Conn) : M unit :=
  l <- get_l ;;
  match cb l with
  | None => panic nil_dereference
  | Some c =>
      let flag := handOffRestoredDestinationConnections l in
      emit (EvOnAccept (cb_id c) rawc flag) ;;;
      match OnAccept c rawc flag with
      | Some v => panic v
      | None => ret tt
      end
  end.

Definition call_OnClose : M unit :=
  l <- get_l ;;
  match cb l with
  | None => panic nil_dereference
  | Some c =>
      emit (EvOnClose (cb_id c)) ;;;
      match OnClose c with
      | Some v => panic v
      | None => ret tt
      end
  end.

(** The body of the goroutine [accept] starts: the callback is called
    under a deferred [recover] that prints the panic and the stack. *)
Definition run_goroutine (g : goroutine) : M unit :=
  match g with
  | GoOnAccept rawc =>
      recovering (call_OnAccept rawc)
                 (fun p =>
                    emit (EvPrint ("panic " ++ p)) ;;;
                    emit (EvPrint EmptyString) ;;;
                    emit EvPrintStack)
  end.

(** [accept]: one [Accept] on the raw socket; an error is returned as it
    is, a connection is handed to a new goroutine. *)
Definition accept : M (option net.error) :=
  l <- get_l ;;
  r <- raw_Accept (rawl l) ;;
  match r with
  | inr err => ret (Some err)
  | inl rawc => go (GoOnAccept rawc) ;;; ret None
  end.

(** [Close]. *)
Definition Close : M (option net.error) :=
  call_OnClose ;;;
  l <- get_l ;;
  raw_Close (rawl l).

(** [Stop]. *)
Definition Stop : M unit :=
  l <- get_l ;;
  raw_SetDeadline_now (rawl l) ;;;
  ret tt.

(** [ListenerFD]. *)
Definition ListenerFD : M (nat * option net.error) :=
  l <- get_l ;;
  r <- raw_File (rawl l) ;;
  match r with
  | inr err =>
      l' <- get_l ;;
      log (name l' ++ " " ++ " listener fd not found : " ++ " " ++ net.Error err) ;;;
      ret (0, Some err)
  | inl n => ret (n, None)
  end.

(** ** [Start]

    The file holds an unresolved merge in the import list and in the
    body of the accept loop; each side, taken with the lines around the
    markers, is a well-bracketed loop.  [Stop] needs the import of
    [time], which only the [HEAD] side has.  Both sides are modelled. *)
Inductive side : Type := HEAD | master.

Definition not_temp_timeout (err : net.error) : M unit :=
  if negb (net.Timeout err && net.Temporary err)
  then log ("not temp-timeout error:" ++ net.Error err)
  else ret tt.

Definition unknown_error (msg : string) : M unit :=
  log ("unknown error while listener accepting:" ++ msg).

(** The loop of the [HEAD] side: it returns on an error that is a
    [net.Error] with [Timeout()], and goes on otherwise. *)
Fixpoint accept_loop_HEAD (fuel : nat) : M unit :=
  match fuel with
  | 0 => out_of_fuel
  | S n =>
      e <- accept ;;
      match e with
      | Some err =>
          if net.is_net_Error err && net.Timeout err then
            l <- get_l ;;
            log ("listener " ++ name l ++ " stop accepting connections by deadline")
          else if net.is_OpError err then
            not_temp_timeout err ;;; accept_loop_HEAD n
          else
            unknown_error (net.Error err) ;;; accept_loop_HEAD n
      | None => accept_loop_HEAD n
      end
  end.

(** The loop of the [master] side: [stopChan] is polled first (the list
    says for each poll whether a value is ready); the [else] that follows
    the marker belongs to [if err != nil] and reads the nil error. *)
Fixpoint accept_loop_master (fuel : nat) (stopChan : list bool) : M unit :=
  match fuel with
  | 0 => out_of_fuel
  | S n =>
      match stopChan with
      | true :: _ =>
          l <- get_l ;;
          log ("listener " ++ name l ++ " stop accepting connections")
      | _ =>
          e <- accept ;;
          match e with
          | Some err =>
              (if net.is_OpError err then not_temp_timeout err
               else unknown_error (net.Error err)) ;;;
              accept_loop_master n (tl stopChan)
          | None => panic nil_dereference
          end
      end
  end.

Definition accept_loop (sd : side) (fuel : nat) (stopChan : list bool) : M unit :=
  match sd with
  | HEAD => accept_loop_HEAD fuel
  | master => accept_loop_master fuel stopChan
  end.

(** [Start]: [listen] when no raw socket is held, then the accept loop
    when the listener binds to its port.  [fuel] bounds the iterations
    the model follows. *)
Definition Start (sd : side) (fuel : nat) (stopChan : list bool) : M unit :=
  l <- get_l ;;
  proceed <-
    match rawl l with
    | None =>
        e <- listen ;;
        match e with
        | Some err =>
            l' <- get_l ;;
            log (name l' ++ " listen failed, " ++ " " ++ net.Error err) ;;;
            ret false
        | None => ret true
        end
    | Some _ => ret true
    end ;;
  if proceed then
    l' <- get_l ;;
    if bindToPort l' then accept_loop sd fuel stopChan else ret tt
  else ret tt.

(** ** Histories

    What happens to a listener between its creation and any later
    moment: calls of its methods, further work of a running accept loop,
    and the scheduler letting a started goroutine run. *)
Inductive op : Type :=
| OpStart (sd : side) (fuel : nat) (stopChan : list bool)
| OpLoop (sd : side) (fuel : nat) (stopChan : list bool)
| OpStop
| OpListenerFD
| OpSetListenerCallbacks (c : option ListenerEventListener)
| OpClose
| OpSchedule (i : nat).

(** The scheduler runs the [i]-th started goroutine, which is then no
    longer pending. *)
Definition schedule (i : nat) : M unit :=
  fun s =>
    match nth_error (pending s) i with
    | None => mkResult (Returned tt) s []
    | Some g =>
        run_goroutine g
          (mkSys (lis s) (world s)
                 (firstn i (pending s) ++ skipn (S i) (pending s)))
    end.

Definition forget {A} (c : M A) : M unit :=
  fun s => let r := c s in
           mkResult (match res r with
                     | Returned _ => Returned tt
                     | o => stop_with o
                     end) (post r) (evs r).

Definition exec (o : op) : M unit :=
  match o with
  | OpStart sd fuel ch => Start sd fuel ch
  | OpLoop sd fuel ch => accept_loop sd fuel ch
  | OpStop => Stop
  | OpListenerFD => forget ListenerFD
  | OpSetListenerCallbacks c => SetListenerCallbacks c
  | OpClose => forget Close
  | OpSchedule i => schedule i
  end.

(** A history from a system: the system it leaves and everything that
    happened, whatever way each call ended. *)
Fixpoint run (ops : list op) (s : Sys) : Sys * list event :=
  match ops with
  | [] => (s, [])
  | o :: rest =>
      let r := exec o s in
      let (s', tr) := run rest (post r) in
      (s', (evs r ++ tr)%list)
  end.

Definition after (ops : list op) (s : Sys) : Sys := fst (run ops s).
Definition history (ops : list op) (s : Sys) : list event := snd (run ops s).

(** ** Reading a trace *)

Definition is_OnAccept (e : event) : bool :=
  match e with EvOnAccept _ _ _ => true | _ => false end.

Definition is_OnClose (e : event) : bool :=
  match e with EvOnClose _ => true | _ => false end.

Definition is_listen (e : event) : bool :=
  match e with EvListen | EvListenTCP _ => true | _ => false end.

Definition is_Accept (e : event) : bool :=
  match e with EvAccept _ | EvAccepted _ => true | _ => false end.

Definition is_Go (e : event) : bool :=
  match e with EvGo _ => true | _ => false end.

Definition OnAccept_of (rawc : net.Conn) (e : event) : bool :=
  match e with EvOnAccept _ c _ => Nat.eqb c rawc | _ => false end.

Definition Accepted_of (rawc : net.Conn) (e : event) : bool :=
  match e with EvAccepted c => Nat.eqb c rawc | _ => false end.

Definition count (p : event -> bool) (tr : list event) : nat :=
  List.length (filter p tr).

(** ** Predicates the proofs use *)

(** A call keeps a property of the listener object and causes only
    events of some kind. *)
Definition framed {A} (P : listener -> Prop) (Q : event -> Prop) (c : M A) : Prop :=
  forall s, P (lis s) -> P (lis (post (c s))) /\ Forall Q (evs (c s)).

(** The calls of [Start] in a history. *)
Definition is_OpStart (o : op) : bool :=
  match o with OpStart _ _ _ => true | _ => false end.

(** The listener's fields that [NewListener] fills from the
    configuration still hold the configuration's values. *)
Definition same_config (lc : v2.ListenerConfig) (l : listener) : Prop :=
  name l = v2.Name lc
  /\ localAddress l = v2.Addr lc
  /\ bindToPort l = v2.BindToPort lc
  /\ listenerTag l = v2.ListenerTag lc
  /\ perConnBufferLimitBytes l = v2.PerConnBufferLimitBytes lc
  /\ handOffRestoredDestinationConnections l
     = v2.HandOffRestoredDestinationConnections lc.

Definition any_event (e : event) : Prop := True.

(** The entries into [listen]. *)
Definition is_EvListen (e : event) : bool :=
  match e with EvListen => true | _ => false end.

Definition no_EvListen (e : event) : Prop := is_EvListen e = false.
Definition no_listen (e : event) : Prop := is_listen e = false.
Definition any_listener (l : listener) : Prop := True.

(** The raw socket the listener holds. *)
Definition holds_socket (r : option net.TCPListener) (l : listener) : Prop :=
  rawl l = r.

(** The started goroutines that hold a given connection. *)
Definition for_conn (rawc : net.Conn) (g : goroutine) : bool :=
  match g with GoOnAccept c => Nat.eqb c rawc end.

Definition owed (rawc : net.Conn) (gs : list goroutine) : nat :=
  List.length (filter (for_conn rawc) gs).

(** For one connection: what a call adds to the calls of [OnAccept] and
    to the goroutines holding the connection is covered by what it adds
    to the returns of [Accept]. *)
Definition balanced {A} (rawc : net.Conn) (c : M A) : Prop :=
  forall s,
    count (OnAccept_of rawc) (evs (c s)) + owed rawc (pending (post (c s)))
    <= count (Accepted_of rawc) (evs (c s)) + owed rawc (pending s).

(** ** Concrete systems *)

(** A callback whose methods return. *)
Definition quiet_callback : ListenerEventListener :=
  {| cb_id := 1; OnAccept := fun _ _ => None; OnClose := None |}.

(** A configuration with a listener inherited from the old process. *)
Definition restored_config : v2.ListenerConfig :=
  {| v2.Name := "ingress";
     v2.Addr := Some (net.TCPAddrPtr (Some {| net.IP := "0.0.0.0"; net.Port := 80 |}));
     v2.BindToPort := true;
     v2.ListenerTag := 1%N;
     v2.PerConnBufferLimitBytes := 4096%N;
     v2.HandOffRestoredDestinationConnections := true;
     v2.InheritListener := Some {| net.fd := 3 |} |}.

(** A configuration without one. *)
Definition fresh_config : v2.ListenerConfig :=
  {| v2.Name := "egress";
     v2.Addr := Some (net.TCPAddrPtr (Some {| net.IP := "127.0.0.1"; net.Port := 443 |}));
     v2.BindToPort := true;
     v2.ListenerTag := 2%N;
     v2.PerConnBufferLimitBytes := 0%N;
     v2.HandOffRestoredDestinationConnections := false;
     v2.InheritListener := None |}.

(** One connection arrives, then [Accept] fails. *)
Definition small_world : World :=
  {| listening := fun _ => inl {| net.fd := 5 |};
     incoming := [inl 7; inr (net.PlainError "too many open files")];
     closing := fun _ => None;
     files := fun t => inl (net.fd t);
     expired := [];
     closed := [] |}.

(** [Accept] fails at once. *)
Definition failing_world : World :=
  {| listening := fun _ => inl {| net.fd := 5 |};
     incoming := [inr (net.PlainError "too many open files")];
     closing := fun _ => None;
     files := fun t => inl (net.fd t);
     expired := [];
     closed := [] |}.

(** ** Further readings of the listener's code *)

(** What [Start] does once it holds a raw socket: the accept loop when
    the listener binds to its port, nothing otherwise. *)
Definition serve (sd : side) (fuel : nat) (stopChan : list bool) : M unit :=
  l' <- get_l ;;
  if bindToPort l' then accept_loop sd fuel stopChan else ret tt.

Definition is_EvAccept (e : event) : bool :=
  match e with EvAccept _ => true | _ => false end.

Definition is_RawClose (e : event) : bool :=
  match e with EvRawClose _ => true | _ => false end.


(** The connections a trace shows as accepted, in order. *)
Definition accepted (tr : list event) : list net.Conn :=
  flat_map (fun e => match e with EvAccepted c => [c] | _ => [] end) tr.

(** The connections among prepared answers of [Accept], in order. *)
Definition conns (answers : list (net.Conn + net.error)) : list net.Conn :=
  flat_map (fun a => match a with inl c => [c] | inr _ => [] end) answers.

(** [Close] does not get past the notification: no callback, or one
    whose [OnClose] panics. *)
Definition notification_fails (l : listener) : bool :=
  match cb l with
  | None => true
  | Some c => match OnClose c with Some _ => true | None => false end
  end.

(** A socket that is neither closed nor past its deadline. *)
Definition live (t : net.TCPListener) (w : World) : bool :=
  negb (is_in t (closed w)) && negb (is_in t (expired w)).

(** The errors at which the loop of the [HEAD] side returns. *)
Definition stops_HEAD (err : net.error) : bool :=
  net.is_net_Error err && net.Timeout err.

Definition goes_on (a : net.Conn + net.error) : bool :=
  match a with inl _ => true | inr err => negb (stops_HEAD err) end.

(** Every [Accept] of a trace is on the given socket. *)
Definition accepts_on (t : net.TCPListener) (e : event) : Prop :=
  match e with EvAccept r => r = Some t | _ => True end.

(** A call relates the system before, its events and the system after
    in a given way. *)
Definition respects {A} (R : Sys -> list event -> Sys -> Prop) (c : M A) : Prop :=
  forall s, R s (evs (c s)) (post (c s)).

(** The goroutines started are those of the accepted connections, one
    each and in order. *)
Definition started_per_accept (s : Sys) (tr : list event) (s' : Sys) : Prop :=
  pending s' = (pending s ++ map GoOnAccept (accepted tr))%list.

(** A held socket stays the held socket, and every [Accept] is on it. *)
Definition on_held_socket (s : Sys) (tr : list event) (s' : Sys) : Prop :=
  forall t, rawl (lis s) = Some t ->
            rawl (lis s') = Some t /\ Forall (accepts_on t) tr.

(** The operating system with other answers of [Accept] left. *)
Definition with_incoming (w : World) (q : list (net.Conn + net.error)) : World :=
  mkWorld (listening w) q (closing w) (files w) (expired w) (closed w).

(** The message of the loop of the [HEAD] side when it returns. *)
Definition deadline_message (l : listener) : string :=
  "listener " ++ name l ++ " stop accepting connections by deadline".

End Network.

(* ================================================================== *)
(** * Properties of the declarations *)
(* ================================================================== *)

Module TypesFacts.

Import Types.

Ltac distinct_strings :=
  repeat constructor; simpl; intuition discriminate.

Lemma StreamResetReason_values_distinct :
  NoDup (values StreamResetReason_consts).
Proof. distinct_strings. Qed.

Lemma StreamResetReason_idents_distinct :
  NoDup (idents StreamResetReason_consts).
Proof. distinct_strings. Qed.

(** C4.  The filter-status vocabulary is three enumerations,
    [FilterHeadersStatus] with the values [Continue] and [StopIteration],
    [FilterDataStatus] with [Continue], [StopIterationAndBuffer],
    [StopIterationAndWatermark] and [StopIterationNoBuffer],
    [FilterTrailersStatus] with [Continue] and [StopIteration]; within
    each, the values are pairwise distinct (and so are the identifiers),
    every value is its constant's identifier without the type's name, and
    these three types are what the methods of the two filter interfaces
    return. *)
Theorem filter_status_vocabulary :
  filter_status_enums =
    [ ("FilterHeadersStatus",  FilterHeadersStatus_consts);
      ("FilterDataStatus",     FilterDataStatus_consts);
      ("FilterTrailersStatus", FilterTrailersStatus_consts) ]
  /\ values FilterHeadersStatus_consts = [ "Continue"; "StopIteration" ]
  /\ values FilterDataStatus_consts =
       [ "Continue"; "StopIterationAndBuffer"; "StopIterationAndWatermark";
         "StopIterationNoBuffer" ]
  /\ values FilterTrailersStatus_consts = [ "Continue"; "StopIteration" ]
  /\ Forall (fun e => NoDup (values (snd e)) /\ NoDup (idents (snd e))
                      /\ map (strip_prefix (fst e)) (idents (snd e))
                         = values (snd e))
            filter_status_enums
  /\ map m_results (firstn 3 (i_methods StreamEncoderFilter)) =
       [ [TNamed "FilterHeadersStatus"]; [TNamed "FilterDataStatus"];
         [TNamed "FilterTrailersStatus"] ]
  /\ map m_results (firstn 3 (i_methods StreamDecoderFilter)) =
       [ [TNamed "FilterHeadersStatus"]; [TNamed "FilterDataStatus"];
         [TNamed "FilterTrailersStatus"] ].
Proof.
  assert (E : filter_status_enums =
    [ ("FilterHeadersStatus",  FilterHeadersStatus_consts);
      ("FilterDataStatus",     FilterDataStatus_consts);
      ("FilterTrailersStatus", FilterTrailersStatus_consts) ]) by reflexivity.
  rewrite E.
  repeat split; try reflexivity.
  repeat (apply Forall_cons;
          [split; [distinct_strings | split; [distinct_strings | reflexivity]] |]).
  apply Forall_nil.
Qed.

(** C5, as stated, fails: not every declared value of
    [StreamResetReason] is one of the variant names [ConnectionTermination],
    [ConnectionFailed], [LocalReset], [Overflow], [RemoteReset]: the
    value of [StreamLocalReset] is the string [StreamLocalReset]. *)
Lemma StreamResetReason_values_not_spec_names :
  ~ Forall (fun v => In v spec_StreamResetReason_variants)
           (values StreamResetReason_consts).
Proof.
  intro H.
  rewrite Forall_forall in H.
  specialize (H StreamLocalReset).
  simpl in H.
  assert (Hin : StreamConnectionTermination = StreamLocalReset
                \/ StreamConnectionFailed = StreamLocalReset
                \/ StreamLocalReset = StreamLocalReset
                \/ StreamOverflow = StreamLocalReset
                \/ StreamRemoteReset = StreamLocalReset \/ False)
    by (right; right; left; reflexivity).
  specialize (H Hin).
  unfold StreamLocalReset in H.
  intuition discriminate.
Qed.

(** C5, amended.  [StreamResetReason] has exactly five declared
    constants, pairwise distinct in identifier and in value; their
    identifiers are the five variant names with the prefix [Stream]; the
    values are [ConnectionTermination], [ConnectionFailed],
    [StreamLocalReset], [StreamOverflow] and [StreamRemoteReset]: the two
    connection reasons carry the bare variant name, the other three keep
    the prefix. *)
Theorem StreamResetReason_variants :
  List.length StreamResetReason_consts = 5
  /\ NoDup (idents StreamResetReason_consts)
  /\ NoDup (values StreamResetReason_consts)
  /\ map (strip_prefix "Stream") (idents StreamResetReason_consts)
     = spec_StreamResetReason_variants
  /\ values StreamResetReason_consts =
       [ "ConnectionTermination"; "ConnectionFailed"; "StreamLocalReset";
         "StreamOverflow"; "StreamRemoteReset" ]
  /\ firstn 2 (values StreamResetReason_consts)
     = firstn 2 spec_StreamResetReason_variants
  /\ skipn 2 (values StreamResetReason_consts)
     = skipn 2 (idents StreamResetReason_consts).
Proof.
  repeat split; try reflexivity.
  - exact StreamResetReason_idents_distinct.
  - exact StreamResetReason_values_distinct.
Qed.

(** C2.  [ClientStreamConnection.NewStream] takes a stream id and a
    [StreamDecoder] and returns a [StreamEncoder];
    [ServerStreamConnectionEventListener.NewStream] takes a stream id and
    a [StreamEncoder] and returns a [StreamDecoder]; exchanging the two
    roles turns either signature into the other. *)
Theorem NewStream_symmetry :
  lookup_method ClientStreamConnection "NewStream" =
    Some (Method "NewStream"
            [("streamId", TString); ("responseDecoder", TNamed "StreamDecoder")]
            [TNamed "StreamEncoder"])
  /\ lookup_method ServerStreamConnectionEventListener "NewStream" =
       Some (Method "NewStream"
               [("streamId", TString); ("responseEncoder", TNamed "StreamEncoder")]
               [TNamed "StreamDecoder"])
  /\ option_map (fun m => (map swap_role (param_types m), map swap_role (m_results m)))
                (lookup_method ClientStreamConnection "NewStream")
     = option_map (fun m => (param_types m, m_results m))
                  (lookup_method ServerStreamConnectionEventListener "NewStream")
  /\ option_map (fun m => (map swap_role (param_types m), map swap_role (m_results m)))
                (lookup_method ServerStreamConnectionEventListener "NewStream")
     = option_map (fun m => (param_types m, m_results m))
                  (lookup_method ClientStreamConnection "NewStream").
Proof. repeat split; reflexivity. Qed.

(** C3.  Each of [EncodeHeaders], [EncodeData] and [EncodeTrailers] of
    [StreamEncoder] returns exactly one value, an [error]; [StreamDecoder]
    consists of [OnDecodeHeaders], [OnDecodeData] and [OnDecodeTrailers],
    none of which returns anything; and the only notification of the
    whole stream layer that carries a failure to its listener is
    [StreamEventListener.OnResetStream]. *)
Theorem encode_errors_returned_decode_errors_notified :
  map m_name (filter (named_in encode_method_names) (i_methods StreamEncoder))
    = encode_method_names
  /\ Forall (fun m => m_results m = [TError])
            (filter (named_in encode_method_names) (i_methods StreamEncoder))
  /\ map m_name (i_methods StreamDecoder) = decode_callback_names
  /\ Forall (fun m => m_results m = []) (i_methods StreamDecoder)
  /\ failure_notifications = [ ("StreamEventListener", "OnResetStream") ].
Proof.
  repeat split; try reflexivity; repeat constructor.
Qed.

(** ** The interfaces as a whole *)

(** X1.  The interface declarations are well formed: interface names
    are pairwise distinct, every embedded interface is declared in the
    file, and no method set (own and embedded methods together) holds
    two methods of one name. *)
Theorem interfaces_well_formed :
  NoDup (map i_name interfaces)
  /\ Forall (fun i =>
               forallb (fun n => match find_interface n with
                                 | Some _ => true
                                 | None => false
                                 end)
                       (i_embeds i) = true
               /\ NoDup (map m_name (method_set i)))
            interfaces.
Proof.
  split; [distinct_strings |].
  repeat (apply Forall_cons; [split; [reflexivity | distinct_strings] |]).
  apply Forall_nil.
Qed.

(** X2.  Which interface can stand for which: among the different
    interfaces of the file, [i] has every method of [j] exactly in these
    cases.  [ServerStreamConnection] and [StreamConnection] are the
    same method set, a [ClientStreamConnection] is both, every
    [StreamEventListener] is a [DownstreamWatermarkEventListener], and
    the rest are the embeddings. *)
Theorem interface_satisfaction :
  names_of (filter (fun p => satisfies (fst p) (snd p)) interface_pairs)
  = [ ("StreamEventListener", "DownstreamWatermarkEventListener");
      ("StreamConnection", "ServerStreamConnection");
      ("ServerStreamConnection", "StreamConnection");
      ("ClientStreamConnection", "StreamConnection");
      ("ClientStreamConnection", "ServerStreamConnection");
      ("ServerStreamConnectionEventListener", "StreamConnectionEventListener");
      ("StreamEncoderFilter", "StreamFilterBase");
      ("StreamEncoderFilterCallbacks", "StreamFilterCallbacks");
      ("StreamDecoderFilter", "StreamFilterBase");
      ("StreamDecoderFilterCallbacks", "StreamFilterCallbacks") ].
Proof. reflexivity. Qed.

(** X3.  Which interfaces exclude each other: two different interfaces
    of the file have a method of one name with different types exactly
    in these cases (each pair in both orders).  In particular one type
    can be a [StreamEncoderFilter] and a [StreamDecoderFilter], but not
    a [StreamEncoder] and a [StreamEncoderFilter], not a [Stream] and
    any filter callbacks, and not both sides of [NewStream]. *)
Theorem interface_conflicts :
  names_of (filter (fun p => conflicting (fst p) (snd p)) interface_pairs)
  = [ ("Stream", "StreamFilterCallbacks");
      ("Stream", "StreamEncoderFilterCallbacks");
      ("Stream", "StreamDecoderFilterCallbacks");
      ("StreamEncoder", "StreamEncoderFilter");
      ("StreamEncoder", "StreamDecoderFilterCallbacks");
      ("ClientStreamConnection", "ServerStreamConnectionEventListener");
      ("ServerStreamConnectionEventListener", "ClientStreamConnection");
      ("StreamFilterCallbacks", "Stream");
      ("StreamEncoderFilter", "StreamEncoder");
      ("StreamEncoderFilter", "StreamDecoderFilterCallbacks");
      ("StreamEncoderFilterCallbacks", "Stream");
      ("StreamDecoderFilterCallbacks", "Stream");
      ("StreamDecoderFilterCallbacks", "StreamEncoder");
      ("StreamDecoderFilterCallbacks", "StreamEncoderFilter") ]
  /\ conflicting StreamEncoderFilter StreamDecoderFilter = false.
Proof. split; reflexivity. Qed.

(** X4.  The three encode methods a decoder filter gets through
    [StreamDecoderFilterCallbacks] take the parameters of the
    [StreamEncoder] methods of the same name, in the same order, and
    return nothing: an encode error cannot reach a decoder filter through
    them. *)
Theorem decoder_callbacks_encode_without_error :
  Forall (fun n =>
            option_map param_types (lookup_method StreamDecoderFilterCallbacks n)
            = option_map param_types (lookup_method StreamEncoder n)
            /\ option_map m_results (lookup_method StreamDecoderFilterCallbacks n)
               = Some []
            /\ option_map m_results (lookup_method StreamEncoder n)
               = Some [TError])
         encode_method_names.
Proof. repeat constructor. Qed.

End TypesFacts.

(* ================================================================== *)
(** * Properties of the frame discipline *)
(* ================================================================== *)

Module EngineFacts.

Import Types Engine.
Local Open Scope list_scope.

Ltac case_advance :=
  match goal with
  | |- context [advance ?p ?f] => destruct (advance p f)
  end.

Lemma shut_refuses (d : direction) (g : frame) (s : stream) :
  shut d s -> exists v, submit d g s = (Some v, s).
Proof.
  intros [Hr | He]; unfold submit.
  - destruct (reset s); [eauto | congruence].
  - rewrite He. destruct (reset s); eauto.
Qed.

Lemma submit_keeps_other (d d' : direction) (f : frame) (s : stream) :
  phase_of d s = Ended -> phase_of d (snd (submit d' f s)) = Ended.
Proof.
  intro He. unfold submit.
  destruct (reset s); [exact He |].
  destruct (phase_of d' s) eqn:Hp; try exact He;
    (case_advance; simpl; [| exact He]);
    destruct d, d'; simpl in *; try exact He; congruence.
Qed.

Lemma submit_keeps_reset (d : direction) (f : frame) (s : stream) :
  reset (snd (submit d f s)) = reset s.
Proof.
  unfold submit.
  destruct (reset s) eqn:Hr; [exact Hr |].
  destruct (phase_of d s); try exact Hr;
    (case_advance; simpl; [| exact Hr]);
    destruct d; simpl; exact Hr.
Qed.

Lemma step_keeps_shut (d : direction) (o : op) (s : stream) :
  shut d s -> shut d (step s o).
Proof.
  intros [Hr | He]; destruct o as [d' f | r]; simpl.
  - left. rewrite submit_keeps_reset. exact Hr.
  - left. unfold ResetStream. destruct (reset s) eqn:E; simpl; congruence.
  - right. apply submit_keeps_other. exact He.
  - right. unfold ResetStream. destruct (reset s); destruct d; simpl in *; exact He.
Qed.

Lemma step_shut_passed (d : direction) (o : op) (s : stream) :
  shut d s -> passed d (step s o) = passed d s.
Proof.
  intros Hs. destruct o as [d' f | r]; simpl.
  - unfold submit.
    destruct (reset s) eqn:Hr; [reflexivity |].
    destruct Hs as [Hs | Hs]; [congruence |].
    destruct (phase_of d' s) eqn:Hp; try reflexivity;
      (case_advance; simpl; [| reflexivity]);
      destruct d, d'; simpl in *; try reflexivity; congruence.
  - unfold ResetStream. destruct (reset s); destruct d; reflexivity.
Qed.

Lemma run_keeps_shut (d : direction) (ops : list op) :
  forall s, shut d s -> shut d (run ops s) /\ passed d (run ops s) = passed d s.
Proof.
  induction ops as [| o ops IH]; intros s Hs.
  - split; [exact Hs | reflexivity].
  - change (run (o :: ops) s) with (run ops (step s o)).
    destruct (IH (step s o) (step_keeps_shut d o s Hs)) as [H1 H2].
    split; [exact H1 |].
    rewrite H2. apply step_shut_passed. exact Hs.
Qed.

Lemma passed_closing_frame (d : direction) (f : frame) (s s1 : stream) :
  submit d f s = (None, s1) ->
  ends f = true \/ (exists t, f = Trailers t) ->
  phase_of d s1 = Ended /\ passed d s1 = passed d s ++ [f].
Proof.
  intros Hsub Hend.
  assert (He : ends f = true) by (destruct Hend as [H | [t ->]]; [exact H | reflexivity]).
  unfold submit in Hsub.
  destruct (reset s); [discriminate |].
  destruct (phase_of d s) eqn:Hp; try discriminate;
    destruct f as [h e | b e | t]; simpl in *; try discriminate;
    subst; inversion Hsub; subst; destruct d; simpl; split; reflexivity.
Qed.

(** C1.  In either direction of a stream, at any point of its life: when
    a frame that signals the end of the stream (headers or data with
    [endStream] set, or trailers, which always do) passes, then after
    any later history every further frame offered to that direction is
    refused with a violation and changes nothing; in the decode direction
    no callback is delivered for it; and the frames that passed in that
    direction stay the ones up to and including the closing frame. *)
Theorem end_stream_closes_direction
  (d : direction) (before : list op) (f : frame) (s1 : stream)
  (later : list op) (g : frame) :
  submit d f (run before new_stream) = (None, s1) ->
  ends f = true \/ (exists t, f = Trailers t) ->
  (exists v, submit d g (run later s1) = (Some v, run later s1))
  /\ (d = Decode -> deliver g (run later s1) = ([], run later s1))
  /\ passed d (run (later ++ [OpSubmit d g]) s1)
     = passed d (run before new_stream) ++ [f].
Proof.
  intros Hsub Hend.
  destruct (passed_closing_frame d f _ s1 Hsub Hend) as [He Hp].
  assert (Hs1 : shut d s1) by (right; exact He).
  destruct (run_keeps_shut d later s1 Hs1) as [Hs2 Hp2].
  destruct (shut_refuses d g _ Hs2) as [v Hv].
  split; [exists v; exact Hv |].
  split.
  - intros ->. unfold deliver. rewrite Hv. reflexivity.
  - destruct (run_keeps_shut d (later ++ [OpSubmit d g]) s1 Hs1) as [_ Hp3].
    rewrite Hp3. exact Hp.
Qed.

(** A request of headers and a last data frame on the decode side;
    trailers that arrive after a reset in between are not delivered. *)
Lemma end_stream_closes_direction_witness :
  let s1 := snd (submit Decode (Data "hello" true)
                        (run [OpSubmit Decode (Headers [] false)] new_stream)) in
  (exists v, submit Decode (Trailers []) (run [OpReset StreamLocalReset] s1)
             = (Some v, run [OpReset StreamLocalReset] s1))
  /\ (Decode = Decode ->
      deliver (Trailers []) (run [OpReset StreamLocalReset] s1)
      = ([], run [OpReset StreamLocalReset] s1))
  /\ passed Decode (run ([OpReset StreamLocalReset] ++ [OpSubmit Decode (Trailers [])]) s1)
     = passed Decode (run [OpSubmit Decode (Headers [] false)] new_stream)
       ++ [Data "hello" true].
Proof.
  apply (end_stream_closes_direction Decode
           [OpSubmit Decode (Headers [] false)] (Data "hello" true)).
  - reflexivity.
  - left. reflexivity.
Defined.

(** Headers without [endStream], a last data frame, then trailers: the
    trailers are refused and only two frames reach the codec. *)
Example trailers_after_last_data :
  let s2 := snd (EncodeData "hello" true
                   (snd (EncodeHeaders [("k", "v")] false new_stream))) in
  EncodeTrailers [] s2 = (Some AfterEndStream, s2)
  /\ wire s2 = [Headers [("k", "v")] false; Data "hello" true].
Proof. split; reflexivity. Qed.

(** Data before headers is refused as out of order. *)
Example data_before_headers :
  deliver (Data "x" false) new_stream = ([], new_stream)
  /\ fst (submit Decode (Data "x" false) new_stream) = Some FrameOrder.
Proof. split; reflexivity. Qed.

End EngineFacts.

(* ================================================================== *)
(** * Properties of the listener *)
(* ================================================================== *)

Module NetworkFacts.

Import Network.
Local Open Scope list_scope.

(** ** Calls that keep a property of the listener object and cause only
    events of some kind *)

Section Framed.

Variable P : listener -> Prop.
Variable Q : event -> Prop.

Lemma framed_ret {A} (a : A) : framed P Q (ret a).
Proof. intros s H. split; [exact H | constructor]. Qed.

Lemma framed_panic {A} (v : string) : framed P Q (@panic A v).
Proof. intros s H. split; [exact H | constructor]. Qed.

Lemma framed_block {A} : framed P Q (@block A).
Proof. intros s H. split; [exact H | constructor]. Qed.

Lemma framed_out_of_fuel {A} : framed P Q (@out_of_fuel A).
Proof. intros s H. split; [exact H | constructor]. Qed.

Lemma framed_emit (e : event) : Q e -> framed P Q (emit e).
Proof. intros He s H. split; [exact H | repeat constructor; exact He]. Qed.

Lemma framed_get_w : framed P Q get_w.
Proof. intros s H. split; [exact H | constructor]. Qed.

Lemma framed_put_w (w : World) : framed P Q (put_w w).
Proof. intros s H. split; [exact H | constructor]. Qed.

Lemma framed_go (g : goroutine) : Q (EvGo g) -> framed P Q (go g).
Proof. intros He s H. split; [exact H | repeat constructor; exact He]. Qed.

Lemma framed_bind {A B} (c : M A) (k : A -> M B) :
  framed P Q c -> (forall a, framed P Q (k a)) -> framed P Q (bind c k).
Proof.
  intros Hc Hk s H. unfold bind.
  destruct (Hc s H) as [H1 E1].
  destruct (res (c s)) as [a | v | |]; simpl; try (split; assumption).
  destruct (Hk a (post (c s)) H1) as [H2 E2].
  split; [exact H2 | apply Forall_app; split; assumption].
Qed.

(** After reading the listener, the rest may rely on the property. *)
Lemma framed_get_l {A} (k : listener -> M A) :
  (forall l, P l -> framed P Q (k l)) -> framed P Q (bind get_l k).
Proof.
  intros Hk s H. unfold bind, get_l. simpl.
  destruct (Hk (lis s) H s H) as [H2 E2].
  split; assumption.
Qed.

Lemma framed_put_l (l : listener) : P l -> framed P Q (put_l l).
Proof. intros Hl s H. split; [exact Hl | constructor]. Qed.

Lemma framed_recovering (c : M unit) (h : string -> M unit) :
  framed P Q c -> (forall v, framed P Q (h v)) -> framed P Q (recovering c h).
Proof.
  intros Hc Hh s H. unfold recovering.
  destruct (Hc s H) as [H1 E1].
  destruct (res (c s)) as [a | v | |]; simpl; try (split; assumption).
  destruct (Hh v (post (c s)) H1) as [H2 E2].
  split; [exact H2 | apply Forall_app; split; assumption].
Qed.

Lemma framed_forget {A} (c : M A) : framed P Q c -> framed P Q (forget c).
Proof. intros Hc s H. exact (Hc s H). Qed.

End Framed.

Ltac framing :=
  repeat first
    [ apply framed_ret | apply framed_panic | apply framed_block
    | apply framed_out_of_fuel | apply framed_get_w | apply framed_put_w
    | apply framed_emit | apply framed_go
    | apply framed_get_l; intros ? ?
    | apply framed_bind; [| intros ?]
    | match goal with
      | |- framed _ _ (match ?x with _ => _ end) => destruct x eqn:?
      end ].

(** ** Everything but [listen] and [Start] *)

Section Methods.

Variable P : listener -> Prop.
Variable Q : event -> Prop.

Hypothesis Q_covers : forall e, is_listen e = false -> Q e.
Hypothesis P_set_cb : forall c l, P l -> P (set_cb c l).

Local Ltac framing_done := framing; try (apply Q_covers; reflexivity).

Lemma framed_raw_Accept r : framed P Q (raw_Accept r).
Proof. unfold raw_Accept. framing_done. Qed.

Lemma framed_raw_Close r : framed P Q (raw_Close r).
Proof. unfold raw_Close. framing_done. Qed.

Lemma framed_raw_SetDeadline_now r : framed P Q (raw_SetDeadline_now r).
Proof. unfold raw_SetDeadline_now. framing_done. Qed.

Lemma framed_raw_File r : framed P Q (raw_File r).
Proof. unfold raw_File. framing_done. Qed.

Lemma framed_accept : framed P Q accept.
Proof.
  unfold accept. apply framed_get_l; intros l Hl.
  apply framed_bind; [apply framed_raw_Accept |].
  intros [rawc | err]; framing_done.
Qed.

Lemma framed_log msg : framed P Q (log msg).
Proof. unfold log. framing_done. Qed.

Lemma framed_not_temp_timeout err : framed P Q (not_temp_timeout err).
Proof. unfold not_temp_timeout, log. framing_done. Qed.

Lemma framed_accept_loop_HEAD fuel : framed P Q (accept_loop_HEAD fuel).
Proof.
  induction fuel as [| n IH]; simpl; [apply framed_out_of_fuel |].
  apply framed_bind; [apply framed_accept |].
  intros [err |]; [| exact IH].
  destruct (net.is_net_Error err && net.Timeout err).
  - unfold log. framing_done.
  - destruct (net.is_OpError err);
      (apply framed_bind; [| intros _; exact IH]).
    + apply framed_not_temp_timeout.
    + apply framed_log.
Qed.

Lemma framed_accept_loop_master fuel :
  forall ch, framed P Q (accept_loop_master fuel ch).
Proof.
  induction fuel as [| n IH]; intros ch; simpl; [apply framed_out_of_fuel |].
  assert (Hgo : framed P Q
            (e <- accept ;;
             match e with
             | Some err =>
                 (if net.is_OpError err then not_temp_timeout err
                  else unknown_error (net.Error err)) ;;;
                 accept_loop_master n (tl ch)
             | None => panic nil_dereference
             end)).
  { apply framed_bind; [apply framed_accept |].
    intros [err |]; [| apply framed_panic].
    apply framed_bind; [| intros _; apply IH].
    destruct (net.is_OpError err);
      [apply framed_not_temp_timeout | apply framed_log]. }
  destruct ch as [| [|] ch']; try exact Hgo.
  unfold log. framing_done.
Qed.

Lemma framed_accept_loop sd fuel ch : framed P Q (accept_loop sd fuel ch).
Proof.
  destruct sd; simpl;
    [apply framed_accept_loop_HEAD | apply framed_accept_loop_master].
Qed.

Lemma framed_SetListenerCallbacks c : framed P Q (SetListenerCallbacks c).
Proof.
  unfold SetListenerCallbacks. apply framed_get_l; intros l Hl.
  apply framed_put_l. apply P_set_cb. exact Hl.
Qed.

Lemma framed_Stop : framed P Q Stop.
Proof.
  unfold Stop. apply framed_get_l; intros l Hl.
  apply framed_bind; [apply framed_raw_SetDeadline_now | intros _; apply framed_ret].
Qed.

Lemma framed_ListenerFD : framed P Q ListenerFD.
Proof.
  unfold ListenerFD. apply framed_get_l; intros l Hl.
  apply framed_bind; [apply framed_raw_File |].
  intros [n | err]; unfold log; framing_done.
Qed.

Lemma framed_call_OnClose : framed P Q call_OnClose.
Proof. unfold call_OnClose. framing_done. Qed.

Lemma framed_call_OnAccept rawc : framed P Q (call_OnAccept rawc).
Proof. unfold call_OnAccept. framing_done. Qed.

Lemma framed_Close : framed P Q Close.
Proof.
  unfold Close. apply framed_bind; [apply framed_call_OnClose |].
  intros _. apply framed_get_l; intros l Hl. apply framed_raw_Close.
Qed.

Lemma framed_run_goroutine g : framed P Q (run_goroutine g).
Proof.
  destruct g as [rawc]. simpl.
  apply framed_recovering; [apply framed_call_OnAccept |].
  intros v. framing_done.
Qed.

Lemma framed_schedule i : framed P Q (schedule i).
Proof.
  intros s H. unfold schedule.
  destruct (nth_error (pending s) i) as [g |].
  - apply (framed_run_goroutine g). exact H.
  - split; [exact H | constructor].
Qed.

Lemma framed_exec_other o : is_OpStart o = false -> framed P Q (exec o).
Proof.
  destruct o; simpl; intro Ho; try discriminate.
  - apply framed_accept_loop.
  - apply framed_Stop.
  - apply framed_forget, framed_ListenerFD.
  - apply framed_SetListenerCallbacks.
  - apply framed_forget, framed_Close.
  - apply framed_schedule.
Qed.

Lemma framed_run_other ops :
  existsb is_OpStart ops = false ->
  forall s, P (lis s) ->
            P (lis (after ops s)) /\ Forall Q (history ops s).
Proof.
  unfold after, history.
  induction ops as [| o ops IH]; intros Hops s H; simpl.
  - split; [exact H | constructor].
  - simpl in Hops. apply orb_false_iff in Hops. destruct Hops as [Ho Hops].
    destruct (framed_exec_other o Ho s H) as [H1 E1].
    specialize (IH Hops (post (exec o s)) H1).
    destruct (run ops (post (exec o s))) as [s' tr]. simpl in *.
    destruct IH as [H2 E2].
    split; [exact H2 | apply Forall_app; split; assumption].
Qed.

(** [Start], when [listen] is harmless or never reached. *)
Hypothesis listen_ok :
  (forall l, P l -> rawl l <> None) \/ framed P Q listen.

Lemma framed_Start sd fuel ch : framed P Q (Start sd fuel ch).
Proof.
  unfold Start. apply framed_get_l; intros l Hl.
  apply framed_bind.
  - destruct (rawl l) eqn:Hr; [apply framed_ret |].
    destruct listen_ok as [Hno | Hlisten]; [elim (Hno l Hl Hr) |].
    apply framed_bind; [exact Hlisten |].
    intros [err |]; [| apply framed_ret].
    apply framed_get_l; intros l' Hl'.
    apply framed_bind; [apply framed_log | intros _; apply framed_ret].
  - intros [|]; [| apply framed_ret].
    apply framed_get_l; intros l' Hl'.
    destruct (bindToPort l'); [apply framed_accept_loop | apply framed_ret].
Qed.

Lemma framed_exec o : framed P Q (exec o).
Proof.
  destruct (is_OpStart o) eqn:Ho; [| apply framed_exec_other; exact Ho].
  destruct o; try discriminate. apply framed_Start.
Qed.

Lemma framed_run ops :
  forall s, P (lis s) ->
            P (lis (after ops s)) /\ Forall Q (history ops s).
Proof.
  unfold after, history.
  induction ops as [| o ops IH]; intros s H; simpl.
  - split; [exact H | constructor].
  - destruct (framed_exec o s H) as [H1 E1].
    specialize (IH (post (exec o s)) H1).
    destruct (run ops (post (exec o s))) as [s' tr]. simpl in *.
    destruct IH as [H2 E2].
    split; [exact H2 | apply Forall_app; split; assumption].
Qed.

End Methods.

(** ** The configuration is kept *)

Lemma NewListener_config lc : same_config lc (NewListener lc).
Proof.
  unfold NewListener. destruct (v2.InheritListener lc); repeat split.
Qed.

Lemma set_cb_config lc c l : same_config lc l -> same_config lc (set_cb c l).
Proof. intro H. exact H. Qed.

Lemma set_rawl_config lc r l : same_config lc l -> same_config lc (set_rawl r l).
Proof. intro H. exact H. Qed.

Lemma framed_listen_config lc : framed (same_config lc) any_event listen.
Proof.
  unfold listen, net_ListenTCP.
  apply framed_bind; [apply framed_emit; exact I | intros _].
  apply framed_get_l; intros l Hl.
  destruct (localAddress l) as [[a | n a] |]; try apply framed_panic.
  apply framed_bind.
  - framing. exact I.
  - intros [rl | err]; [| apply framed_ret].
    apply framed_get_l; intros l' Hl'.
    apply framed_bind; [| intros _; apply framed_ret].
    apply framed_put_l. apply set_rawl_config. exact Hl'.
Qed.

Lemma config_kept lc w ops : same_config lc (lis (after ops (boot lc w))).
Proof.
  apply (framed_run (same_config lc) any_event).
  - intros e _. exact I.
  - intros c l. apply set_cb_config.
  - right. apply framed_listen_config.
  - apply NewListener_config.
Qed.

(** C9.  A listener built by [NewListener] reports its configuration,
    whatever was called on it in between ([Start], [SetListenerCallbacks]
    or any other method, the accept loop running on, started goroutines
    running): [Name], [Addr], [ListenerTag] and
    [PerConnBufferLimitBytes] return the configuration's fields. *)
Theorem getters_report_configuration
  (lc : v2.ListenerConfig) (w : World) (ops : list op) :
  let l := lis (after ops (boot lc w)) in
  Name l = v2.Name lc
  /\ Addr l = v2.Addr lc
  /\ ListenerTag l = v2.ListenerTag lc
  /\ PerConnBufferLimitBytes l = v2.PerConnBufferLimitBytes lc.
Proof.
  destruct (config_kept lc w ops) as (H1 & H2 & _ & H4 & H5 & _).
  unfold Name, Addr, ListenerTag, PerConnBufferLimitBytes.
  repeat split; assumption.
Qed.

(** ** Reading the result of a sequence *)

Lemma evs_bind {A B} (c : M A) (k : A -> M B) (s : Sys) :
  evs (bind c k s)
  = evs (c s) ++ match res (c s) with
                 | Returned a => evs (k a (post (c s)))
                 | _ => []
                 end.
Proof.
  unfold bind. destruct (res (c s)); simpl; try rewrite app_nil_r; reflexivity.
Qed.

Lemma evs_get_l {A} (k : listener -> M A) (s : Sys) :
  evs (bind get_l k s) = evs (k (lis s) s).
Proof. reflexivity. Qed.

Lemma res_get_l {A} (k : listener -> M A) (s : Sys) :
  res (bind get_l k s) = res (k (lis s) s).
Proof. reflexivity. Qed.

Lemma post_get_l {A} (k : listener -> M A) (s : Sys) :
  post (bind get_l k s) = post (k (lis s) s).
Proof. reflexivity. Qed.

Lemma res_bind {A B} (c : M A) (k : A -> M B) (s : Sys) :
  res (bind c k s)
  = match res (c s) with
    | Returned a => res (k a (post (c s)))
    | o => stop_with o
    end.
Proof. unfold bind. destruct (res (c s)); reflexivity. Qed.

Lemma post_bind {A B} (c : M A) (k : A -> M B) (s : Sys) :
  post (bind c k s)
  = match res (c s) with
    | Returned a => post (k a (post (c s)))
    | _ => post (c s)
    end.
Proof. unfold bind. destruct (res (c s)); reflexivity. Qed.

Lemma call_OnClose_registered (s : Sys) (c : ListenerEventListener) :
  cb (lis s) = Some c ->
  call_OnClose s
  = mkResult (match OnClose c with
              | Some v => Panicked v
              | None => Returned tt
              end) s [EvOnClose (cb_id c)].
Proof.
  intro Hc. unfold call_OnClose, bind, get_l. simpl. rewrite Hc. simpl.
  destruct (OnClose c); reflexivity.
Qed.

Lemma call_OnAccept_registered (rawc : net.Conn) (s : Sys) (c : ListenerEventListener) :
  cb (lis s) = Some c ->
  call_OnAccept rawc s
  = mkResult (match OnAccept c rawc (handOffRestoredDestinationConnections (lis s)) with
              | Some v => Panicked v
              | None => Returned tt
              end) s
             [EvOnAccept (cb_id c) rawc (handOffRestoredDestinationConnections (lis s))].
Proof.
  intro Hc. unfold call_OnAccept, bind, get_l. simpl. rewrite Hc. simpl.
  destruct (OnAccept c rawc _); reflexivity.
Qed.

Lemma framed_evs {A} P Q (c : M A) (s : Sys) :
  framed P Q c -> P (lis s) -> Forall Q (evs (c s)).
Proof. intros H Hs. exact (proj2 (H s Hs)). Qed.

Lemma count_none (p : event -> bool) (tr : list event) :
  Forall (fun e => p e = false) tr -> count p tr = 0.
Proof.
  unfold count. induction 1 as [| e tr He _ IH]; simpl; [reflexivity |].
  rewrite He. exact IH.
Qed.

Lemma count_nil (p : event -> bool) : count p [] = 0.
Proof. reflexivity. Qed.

Lemma count_app (p : event -> bool) (a b : list event) :
  count p (a ++ b) = count p a + count p b.
Proof. unfold count. rewrite filter_app, length_app. reflexivity. Qed.

(** ** [listen] and [Start] *)

Lemma listen_events (s : Sys) :
  exists rest, evs (listen s) = EvListen :: rest /\ Forall no_EvListen rest.
Proof.
  unfold listen. rewrite evs_bind. simpl.
  destruct (localAddress (lis s)) as [[a | n a] |]; simpl;
    [destruct (listening (world s) a); simpl | |];
    eexists; (split; [reflexivity | repeat constructor]).
Qed.

Lemma Start_enters_listen_first (sd : side) (fuel : nat) (ch : list bool) (s : Sys) :
  rawl (lis s) = None ->
  exists rest,
    evs (Start sd fuel ch s) = EvListen :: rest /\ Forall no_EvListen rest.
Proof.
  intro Hr. unfold Start. rewrite evs_get_l, Hr.
  rewrite evs_bind, evs_bind.
  destruct (listen_events s) as [rest [E Hrest]].
  rewrite E.
  match goal with
  | |- exists r, ((_ :: _) ++ ?x1) ++ ?x2 = _ /\ _ =>
      exists ((rest ++ x1) ++ x2); split; [reflexivity |]
  end.
  apply Forall_app; split; [apply Forall_app; split; [exact Hrest |] |].
  - destruct (res (listen s)) as [e | | |]; try constructor.
    apply (framed_evs any_listener no_EvListen); [| exact I].
    destruct e; framing. reflexivity.
  - match goal with |- Forall _ (match ?r with _ => _ end) => destruct r as [b | | |] end;
      try constructor.
    apply (framed_evs any_listener no_EvListen); [| exact I].
    destruct b; [| apply framed_ret].
    apply framed_get_l; intros l' _.
    destruct (bindToPort l'); [| apply framed_ret].
    apply framed_accept_loop.
    intros e He. destruct e; try reflexivity; discriminate.
Qed.

Lemma inherited_socket_kept lc w rl ops :
  v2.InheritListener lc = Some rl ->
  holds_socket (Some rl) (lis (after ops (boot lc w)))
  /\ Forall no_listen (history ops (boot lc w)).
Proof.
  intro Hi.
  apply (framed_run (holds_socket (Some rl)) no_listen).
  - intros e He. exact He.
  - intros c l Hl. exact Hl.
  - left. intros l Hl. unfold holds_socket in Hl. congruence.
  - unfold holds_socket, boot, NewListener. simpl. rewrite Hi. reflexivity.
Qed.

Lemma Start_with_socket_never_listens sd fuel ch s rl :
  rawl (lis s) = Some rl ->
  Forall no_listen (evs (Start sd fuel ch s)).
Proof.
  intro Hr.
  apply (framed_evs (holds_socket (Some rl)) no_listen); [| exact Hr].
  apply framed_Start.
  - intros e He. exact He.
  - left. intros l Hl. unfold holds_socket in Hl. congruence.
Qed.

Lemma no_socket_before_Start lc w ops :
  v2.InheritListener lc = None ->
  existsb is_OpStart ops = false ->
  rawl (lis (after ops (boot lc w))) = None.
Proof.
  intros Hi Hops.
  apply (framed_run_other (holds_socket None) any_event).
  - intros e _. exact I.
  - intros c l Hl. exact Hl.
  - exact Hops.
  - unfold holds_socket, boot, NewListener. simpl. rewrite Hi. reflexivity.
Qed.

(** C8.  Whether [Start] binds a socket is decided by the configuration
    the listener was built from.  With an inherited listener in the
    configuration, [NewListener] keeps it as the raw socket, it is still
    the raw socket after any history, and a [Start] at that point causes
    neither a call of [listen] nor of [net.ListenTCP], on either side of
    the merge and for any number of loop iterations.  Without one, the new
    listener holds no raw socket, and the first [Start] (no [Start]
    earlier in the history) enters [listen] as the first thing it does,
    before any [Accept], and enters it once. *)
Theorem listen_only_without_inherited_listener
  (lc : v2.ListenerConfig) (w : World) (before : list op)
  (sd : side) (fuel : nat) (stopChan : list bool) :
  let s := after before (boot lc w) in
  let r := Start sd fuel stopChan s in
  match v2.InheritListener lc with
  | Some rl =>
      rawl (NewListener lc) = Some rl
      /\ rawl (lis s) = Some rl
      /\ count is_listen (evs r) = 0
  | None =>
      rawl (NewListener lc) = None
      /\ (existsb is_OpStart before = false ->
          exists rest,
            evs r = EvListen :: rest /\ count is_EvListen rest = 0)
  end.
Proof.
  intros s r. destruct (v2.InheritListener lc) as [rl |] eqn:Hi.
  - destruct (inherited_socket_kept lc w rl before Hi) as [Hs _].
    split; [| split].
    + unfold NewListener. rewrite Hi. reflexivity.
    + exact Hs.
    + apply count_none.
      exact (Start_with_socket_never_listens sd fuel stopChan s rl Hs).
  - split.
    + unfold NewListener. rewrite Hi. reflexivity.
    + intro Hops.
      destruct (Start_enters_listen_first sd fuel stopChan s
                  (no_socket_before_Start lc w before Hi Hops))
        as [rest [E Hrest]].
      exists rest. split; [exact E | apply count_none; exact Hrest].
Qed.

(** ** [Close] *)

Lemma raw_Close_returns (r : option net.TCPListener) (s : Sys) :
  exists e, res (raw_Close r s) = Returned e.
Proof.
  unfold raw_Close. rewrite res_bind. cbn [emit res post].
  destruct r as [t |]; [| eexists; reflexivity].
  rewrite res_bind. cbn [get_w res post].
  destruct (is_in t (closed (world s))); eexists; reflexivity.
Qed.

(** C7.  With a callback registered, [Close] calls its [OnClose] first
    and once, whatever follows; when [OnClose] returns, the raw socket is
    closed next, [Close] returns, and what closing the socket returns is
    what [Close] returns (the events are the call of [OnClose] followed
    by those of the raw [Close], and the system is left as the raw
    [Close] leaves it). *)
Theorem Close_notifies_then_closes
  (s : Sys) (c : ListenerEventListener) :
  cb (lis s) = Some c ->
  let r := Close s in
  (exists rest, evs r = EvOnClose (cb_id c) :: rest)
  /\ count is_OnClose (evs r) = 1
  /\ (OnClose c = None ->
      evs r = [EvOnClose (cb_id c); EvRawClose (rawl (lis s))]
      /\ evs r = EvOnClose (cb_id c) :: evs (raw_Close (rawl (lis s)) s)
      /\ res r = res (raw_Close (rawl (lis s)) s)
      /\ (exists e, res r = Returned e)
      /\ post r = post (raw_Close (rawl (lis s)) s)).
Proof.
  intros Hc r. subst r.
  assert (Hraw : evs (raw_Close (rawl (lis s)) s) = [EvRawClose (rawl (lis s))]).
  { unfold raw_Close. rewrite evs_bind. simpl.
    destruct (rawl (lis s)) as [t |]; simpl; [| reflexivity].
    destruct (is_in t (closed (world s))); reflexivity. }
  unfold Close.
  rewrite evs_bind, res_bind, post_bind, (call_OnClose_registered s c Hc).
  cbn [res post evs].
  destruct (OnClose c) as [v |].
  - split; [eexists; reflexivity |].
    split; [reflexivity | discriminate].
  - rewrite evs_get_l, res_get_l, post_get_l, Hraw.
    split; [eexists; reflexivity |].
    split; [reflexivity |].
    intros _. repeat split; try reflexivity.
    apply raw_Close_returns.
Qed.

(** ** [accept] *)

Lemma raw_Accept_keeps (r : option net.TCPListener) (s : Sys) :
  lis (post (raw_Accept r s)) = lis s
  /\ pending (post (raw_Accept r s)) = pending s.
Proof.
  unfold raw_Accept. rewrite post_bind. cbn [emit res post].
  destruct r as [t |]; [| split; reflexivity].
  rewrite post_bind. cbn [get_w res post].
  destruct (is_in t (closed (world s))); [split; reflexivity |].
  destruct (is_in t (expired (world s))); [split; reflexivity |].
  destruct (incoming (world s)) as [| [c | e] rest]; split; reflexivity.
Qed.

Lemma raw_Accept_events (r : option net.TCPListener) (s : Sys) :
  evs (raw_Accept r s)
  = match res (raw_Accept r s) with
    | Returned (inl c) => [EvAccept r; EvAccepted c]
    | _ => [EvAccept r]
    end.
Proof.
  unfold raw_Accept. rewrite evs_bind, res_bind. cbn [emit res post evs].
  destruct r as [t |]; [| reflexivity].
  rewrite evs_bind, res_bind. cbn [get_w res post evs].
  destruct (is_in t (closed (world s))); [reflexivity |].
  destruct (is_in t (expired (world s))); [reflexivity |].
  destruct (incoming (world s)) as [| [c | e] rest]; reflexivity.
Qed.

Lemma accept_res (s : Sys) :
  res (accept s)
  = match res (raw_Accept (rawl (lis s)) s) with
    | Returned (inl _) => Returned None
    | Returned (inr err) => Returned (Some err)
    | o => stop_with o
    end.
Proof.
  unfold accept. rewrite res_get_l, res_bind.
  destruct (res (raw_Accept (rawl (lis s)) s)) as [[c | e] | | |]; reflexivity.
Qed.

Lemma accept_evs (s : Sys) :
  evs (accept s)
  = match res (raw_Accept (rawl (lis s)) s) with
    | Returned (inl c) =>
        [EvAccept (rawl (lis s)); EvAccepted c; EvGo (GoOnAccept c)]
    | _ => [EvAccept (rawl (lis s))]
    end.
Proof.
  unfold accept. rewrite evs_get_l, evs_bind, raw_Accept_events.
  destruct (res (raw_Accept (rawl (lis s)) s)) as [[c | e] | | |]; reflexivity.
Qed.

Lemma accept_post (s : Sys) :
  lis (post (accept s)) = lis s
  /\ pending (post (accept s))
     = match res (raw_Accept (rawl (lis s)) s) with
       | Returned (inl c) => pending s ++ [GoOnAccept c]
       | _ => pending s
       end.
Proof.
  unfold accept. rewrite post_get_l, post_bind.
  destruct (raw_Accept_keeps (rawl (lis s)) s) as [Hl Hp].
  destruct (res (raw_Accept (rawl (lis s)) s)) as [[c | e] | | |];
    cbn [bind go ret res post lis pending]; rewrite ?Hl, ?Hp; split; reflexivity.
Qed.

(** ** Every call of [OnAccept] is paid for by an accepted connection

    For one connection: the calls of [OnAccept] with it, together with
    the goroutines still holding it, never exceed the times [Accept]
    returned it. *)

Section Balanced.

Variable rawc : net.Conn.

Lemma balanced_ret {A} (a : A) : balanced rawc (ret a).
Proof. intro s. simpl. lia. Qed.

Lemma balanced_panic {A} (v : string) : balanced rawc (@panic A v).
Proof. intro s. simpl. lia. Qed.

Lemma balanced_block {A} : balanced rawc (@block A).
Proof. intro s. simpl. lia. Qed.

Lemma balanced_out_of_fuel {A} : balanced rawc (@out_of_fuel A).
Proof. intro s. simpl. lia. Qed.

Lemma balanced_get_l : balanced rawc get_l.
Proof. intro s. simpl. lia. Qed.

Lemma balanced_get_w : balanced rawc get_w.
Proof. intro s. simpl. lia. Qed.

Lemma balanced_put_w (w : World) : balanced rawc (put_w w).
Proof. intro s. simpl. lia. Qed.

Lemma balanced_put_l (l : listener) : balanced rawc (put_l l).
Proof. intro s. simpl. lia. Qed.

Lemma balanced_emit (e : event) : OnAccept_of rawc e = false -> balanced rawc (emit e).
Proof.
  intros He s. unfold count. simpl. rewrite He.
  destruct (Accepted_of rawc e); simpl; lia.
Qed.

Lemma balanced_bind {A B} (c : M A) (k : A -> M B) :
  balanced rawc c -> (forall a, balanced rawc (k a)) -> balanced rawc (bind c k).
Proof.
  intros Hc Hk s. specialize (Hc s).
  rewrite evs_bind, post_bind, !count_app.
  destruct (res (c s)) as [a | v | |]; rewrite ?count_nil; try lia.
  specialize (Hk a (post (c s))). lia.
Qed.

Lemma balanced_forget {A} (c : M A) : balanced rawc c -> balanced rawc (forget c).
Proof. intros Hc s. exact (Hc s). Qed.

Lemma owed_app (a b : list goroutine) :
  owed rawc (a ++ b) = owed rawc a + owed rawc b.
Proof. unfold owed. rewrite filter_app, length_app. reflexivity. Qed.

Lemma owed_cons (g : goroutine) (gs : list goroutine) :
  owed rawc (g :: gs) = (if for_conn rawc g then 1 else 0) + owed rawc gs.
Proof. unfold owed. simpl. destruct (for_conn rawc g); reflexivity. Qed.

Lemma owed_without (gs : list goroutine) :
  forall i g,
    nth_error gs i = Some g ->
    owed rawc gs
    = owed rawc (firstn i gs ++ skipn (S i) gs)
      + (if for_conn rawc g then 1 else 0).
Proof.
  induction gs as [| h gs IH]; intros [| i] g Hn; simpl in Hn; try discriminate.
  - inversion Hn; subst.
    change (firstn 0 (g :: gs) ++ skipn 1 (g :: gs)) with gs.
    rewrite owed_cons. lia.
  - specialize (IH i g Hn).
    change (firstn (S i) (h :: gs) ++ skipn (S (S i)) (h :: gs))
      with (h :: (firstn i gs ++ skipn (S i) gs)).
    rewrite !owed_cons. lia.
Qed.

End Balanced.

Ltac balancing :=
  repeat first
    [ apply balanced_ret | apply balanced_panic | apply balanced_block
    | apply balanced_out_of_fuel | apply balanced_get_w | apply balanced_put_w
    | apply balanced_get_l | apply balanced_put_l
    | apply balanced_emit; reflexivity
    | apply balanced_bind; [| intros ?]
    | match goal with
      | |- balanced _ (match ?x with _ => _ end) => destruct x eqn:?
      end ].

Section BalancedMethods.

Variable rawc : net.Conn.

Lemma balanced_raw_Close r : balanced rawc (raw_Close r).
Proof. unfold raw_Close. balancing. Qed.

Lemma balanced_raw_SetDeadline_now r : balanced rawc (raw_SetDeadline_now r).
Proof. unfold raw_SetDeadline_now. balancing. Qed.

Lemma balanced_raw_File r : balanced rawc (raw_File r).
Proof. unfold raw_File. balancing. Qed.

Lemma balanced_log msg : balanced rawc (log msg).
Proof. unfold log. balancing. Qed.

(** [accept] starts a goroutine for exactly the connection [Accept]
    returned. *)
Lemma balanced_accept : balanced rawc accept.
Proof.
  intro s. rewrite accept_evs.
  destruct (accept_post s) as [_ Hp]. rewrite Hp.
  destruct (res (raw_Accept (rawl (lis s)) s)) as [[c | e] | | |];
    rewrite ?owed_app; unfold count, owed; simpl;
    try destruct (Nat.eqb c rawc); simpl; lia.
Qed.

Lemma balanced_not_temp_timeout err : balanced rawc (not_temp_timeout err).
Proof. unfold not_temp_timeout, log. balancing. Qed.

Lemma balanced_accept_loop_HEAD fuel : balanced rawc (accept_loop_HEAD fuel).
Proof.
  induction fuel as [| n IH]; simpl; [apply balanced_out_of_fuel |].
  apply balanced_bind; [apply balanced_accept |].
  intros [err |]; [| exact IH].
  destruct (net.is_net_Error err && net.Timeout err).
  - unfold log. balancing.
  - destruct (net.is_OpError err);
      (apply balanced_bind; [| intros _; exact IH]).
    + apply balanced_not_temp_timeout.
    + apply balanced_log.
Qed.

Lemma balanced_accept_loop_master fuel :
  forall ch, balanced rawc (accept_loop_master fuel ch).
Proof.
  induction fuel as [| n IH]; intros ch; simpl; [apply balanced_out_of_fuel |].
  assert (Hgo : balanced rawc
            (e <- accept ;;
             match e with
             | Some err =>
                 (if net.is_OpError err then not_temp_timeout err
                  else unknown_error (net.Error err)) ;;;
                 accept_loop_master n (tl ch)
             | None => panic nil_dereference
             end)).
  { apply balanced_bind; [apply balanced_accept |].
    intros [err |]; [| apply balanced_panic].
    apply balanced_bind; [| intros _; apply IH].
    destruct (net.is_OpError err);
      [apply balanced_not_temp_timeout | apply balanced_log]. }
  destruct ch as [| [|] ch']; try exact Hgo.
  unfold log. balancing.
Qed.

Lemma balanced_accept_loop sd fuel ch : balanced rawc (accept_loop sd fuel ch).
Proof.
  destruct sd; simpl;
    [apply balanced_accept_loop_HEAD | apply balanced_accept_loop_master].
Qed.

Lemma balanced_listen : balanced rawc listen.
Proof. unfold listen, net_ListenTCP. balancing. Qed.

Lemma balanced_Start sd fuel ch : balanced rawc (Start sd fuel ch).
Proof.
  unfold Start.
  apply balanced_bind; [apply balanced_get_l | intros l].
  apply balanced_bind.
  - destruct (rawl l); [apply balanced_ret |].
    apply balanced_bind; [apply balanced_listen |].
    intros [err |]; unfold log; balancing.
  - intros [|]; [| apply balanced_ret].
    apply balanced_bind; [apply balanced_get_l | intros l'].
    destruct (bindToPort l'); [apply balanced_accept_loop | apply balanced_ret].
Qed.

Lemma call_OnAccept_unregistered (c : net.Conn) (s : Sys) :
  cb (lis s) = None ->
  call_OnAccept c s = mkResult (Panicked nil_dereference) s [].
Proof.
  intro Hc. unfold call_OnAccept, bind, get_l. simpl. rewrite Hc. reflexivity.
Qed.

(** A goroutine calls [OnAccept] at most once, with its own connection,
    and accepts nothing. *)
Lemma run_goroutine_effect (g : goroutine) (s : Sys) :
  lis (post (run_goroutine g s)) = lis s
  /\ pending (post (run_goroutine g s)) = pending s
  /\ count (OnAccept_of rawc) (evs (run_goroutine g s))
     <= (if for_conn rawc g then 1 else 0)
  /\ count (Accepted_of rawc) (evs (run_goroutine g s)) = 0.
Proof.
  destruct g as [c]. unfold run_goroutine, recovering.
  destruct (cb (lis s)) as [l |] eqn:Hc.
  - rewrite (call_OnAccept_registered c s l Hc).
    destruct (OnAccept l c _); unfold count; simpl;
      destruct (Nat.eqb c rawc); simpl; repeat split; lia.
  - rewrite (call_OnAccept_unregistered c s Hc).
    unfold count; simpl; destruct (Nat.eqb c rawc); repeat split; lia.
Qed.

Lemma balanced_schedule i : balanced rawc (schedule i).
Proof.
  intro s. unfold schedule.
  destruct (nth_error (pending s) i) as [g |] eqn:Hn; [| simpl; lia].
  rewrite (owed_without rawc (pending s) i g Hn).
  destruct (run_goroutine_effect g
              (mkSys (lis s) (world s)
                     (firstn i (pending s) ++ skipn (S i) (pending s))))
    as (_ & Hp & Ho & Ha).
  rewrite Hp, Ha. cbn [pending]. lia.
Qed.

Lemma balanced_exec o : balanced rawc (exec o).
Proof.
  destruct o; simpl.
  - apply balanced_Start.
  - apply balanced_accept_loop.
  - unfold Stop. apply balanced_bind; [apply balanced_get_l | intros l].
    apply balanced_bind; [apply balanced_raw_SetDeadline_now |].
    intros _. apply balanced_ret.
  - apply balanced_forget. unfold ListenerFD.
    apply balanced_bind; [apply balanced_get_l | intros l].
    apply balanced_bind; [apply balanced_raw_File |].
    intros [n | err]; unfold log; balancing.
  - unfold SetListenerCallbacks. balancing.
  - apply balanced_forget. unfold Close, call_OnClose.
    apply balanced_bind; [balancing |].
    intros _. apply balanced_bind; [apply balanced_get_l | intros l].
    apply balanced_raw_Close.
  - apply balanced_schedule.
Qed.

Lemma balanced_run ops :
  forall s,
    count (OnAccept_of rawc) (history ops s)
    + owed rawc (pending (after ops s))
    <= count (Accepted_of rawc) (history ops s) + owed rawc (pending s).
Proof.
  unfold after, history.
  induction ops as [| o ops IH]; intro s; simpl; [lia |].
  pose proof (balanced_exec o s) as Ho.
  specialize (IH (post (exec o s))).
  destruct (run ops (post (exec o s))) as [s' tr]. simpl in *.
  rewrite !count_app. lia.
Qed.

End BalancedMethods.

Lemma config_kept_from lc ops s :
  same_config lc (lis s) -> same_config lc (lis (after ops s)).
Proof.
  intro H.
  apply (framed_run (same_config lc) any_event).
  - intros e _. exact I.
  - intros c l. apply set_cb_config.
  - right. apply framed_listen_config.
  - exact H.
Qed.

Lemma run_goroutine_registered (rawc : net.Conn) (s : Sys) (c : ListenerEventListener) :
  cb (lis s) = Some c ->
  filter is_OnAccept (evs (run_goroutine (GoOnAccept rawc) s))
  = [EvOnAccept (cb_id c) rawc (handOffRestoredDestinationConnections (lis s))]
  /\ res (run_goroutine (GoOnAccept rawc) s) = Returned tt
  /\ post (run_goroutine (GoOnAccept rawc) s) = s.
Proof.
  intro Hc. unfold run_goroutine, recovering.
  rewrite (call_OnAccept_registered rawc s c Hc).
  destruct (OnAccept c rawc _); repeat split.
Qed.

(** C6.  When the raw socket's [Accept] returns a connection, [accept]
    returns no error and starts exactly one goroutine, which holds that
    connection; [accept] itself calls nothing else.  When the scheduler
    later runs that goroutine, with a callback registered at that moment,
    the goroutine calls that callback's [OnAccept] exactly once, with the
    accepted connection and the [HandOffRestoredDestinationConnections]
    flag of the configuration the listener was built from (whatever
    happened to the listener before and in between), it ends without a
    panic leaving the goroutine, and it is gone from the started
    goroutines, so it cannot run again.  Over any history, the calls of
    [OnAccept] with a connection and the goroutines still holding it do
    not exceed the times [Accept] returned it. *)
Theorem accepted_connection_reaches_OnAccept_once
  (lc : v2.ListenerConfig) (w : World) (before later : list op)
  (rawc : net.Conn) (c : ListenerEventListener) (i : nat) :
  let s := after before (boot lc w) in
  let r := accept s in
  let s2 := after later (post r) in
  let r2 := schedule i s2 in
  res (raw_Accept (rawl (lis s)) s) = Returned (inl rawc) ->
  nth_error (pending s2) i = Some (GoOnAccept rawc) ->
  cb (lis s2) = Some c ->
  (res r = Returned None
   /\ evs r = [EvAccept (rawl (lis s)); EvAccepted rawc; EvGo (GoOnAccept rawc)]
   /\ pending (post r) = pending s ++ [GoOnAccept rawc])
  /\ (filter is_OnAccept (evs r2)
      = [EvOnAccept (cb_id c) rawc (v2.HandOffRestoredDestinationConnections lc)]
      /\ res r2 = Returned tt
      /\ pending (post r2) = firstn i (pending s2) ++ skipn (S i) (pending s2))
  /\ (forall (ops : list op) (x : net.Conn),
        count (OnAccept_of x) (history ops (boot lc w))
        + owed x (pending (after ops (boot lc w)))
        <= count (Accepted_of x) (history ops (boot lc w))).
Proof.
  intros s r s2 r2 Hacc Hnth Hcb.
  split; [| split].
  - subst r. rewrite accept_res, accept_evs.
    destruct (accept_post s) as [_ Hp]. rewrite Hp, Hacc.
    repeat split.
  - assert (Hcfg : same_config lc (lis s2)).
    { apply config_kept_from.
      subst r. destruct (accept_post s) as [Hl _]. rewrite Hl.
      apply config_kept. }
    destruct Hcfg as (_ & _ & _ & _ & _ & Hflag).
    subst r2. unfold schedule. rewrite Hnth.
    set (s3 := mkSys (lis s2) (world s2)
                     (firstn i (pending s2) ++ skipn (S i) (pending s2))).
    destruct (run_goroutine_registered rawc s3 c Hcb) as (He & Hr & Hp).
    rewrite He, Hr, Hp. cbn [s3 lis pending]. rewrite Hflag.
    repeat split.
  - intros ops x.
    pose proof (balanced_run x ops (boot lc w)) as H.
    cbn [boot pending] in H. unfold owed at 2 in H. simpl in H. lia.
Qed.

(** A restored listener with a callback accepts connection 7; the
    goroutine runs right away. *)
Lemma accepted_connection_reaches_OnAccept_once_witness :
  let s := after [OpSetListenerCallbacks (Some quiet_callback)]
                 (boot restored_config small_world) in
  filter is_OnAccept (evs (schedule 0 (after [] (post (accept s)))))
  = [EvOnAccept 1 7 true]
  /\ pending (post (accept s)) = [GoOnAccept 7].
Proof.
  pose proof (accepted_connection_reaches_OnAccept_once
                restored_config small_world
                [OpSetListenerCallbacks (Some quiet_callback)] []
                7 quiet_callback 0 eq_refl eq_refl eq_refl) as H.
  destruct H as ((_ & _ & Hp) & (He & _) & _).
  split; [exact He | exact Hp].
Defined.

(** C10.  When the raw socket's [Accept] returns an error, [accept]
    returns that error; its only event is the call of [Accept]: no
    goroutine is started and [OnAccept] is not called, and the listener
    and the started goroutines are as before.  Over any history,
    [OnAccept] is called with a connection at most as often as [Accept]
    returned that connection. *)
Theorem accept_error_is_returned (s : Sys) (err : net.error) :
  res (raw_Accept (rawl (lis s)) s) = Returned (inr err) ->
  let r := accept s in
  res r = Returned (Some err)
  /\ evs r = [EvAccept (rawl (lis s))]
  /\ count is_Go (evs r) = 0
  /\ count is_OnAccept (evs r) = 0
  /\ pending (post r) = pending s
  /\ lis (post r) = lis s
  /\ (forall (lc : v2.ListenerConfig) (w : World) (ops : list op) (x : net.Conn),
        count (OnAccept_of x) (history ops (boot lc w))
        <= count (Accepted_of x) (history ops (boot lc w))).
Proof.
  intros Herr r. subst r.
  rewrite accept_res, accept_evs.
  destruct (accept_post s) as [Hl Hp]. rewrite Hp, Hl, Herr.
  repeat split.
  intros lc w ops x.
  pose proof (balanced_run x ops (boot lc w)) as H.
  cbn [boot pending] in H. unfold owed at 2 in H. simpl in H. lia.
Qed.

(** A restored listener whose first [Accept] fails. *)
Lemma accept_error_is_returned_witness :
  res (accept (boot restored_config failing_world))
  = Returned (Some (net.PlainError "too many open files"))
  /\ pending (post (accept (boot restored_config failing_world))) = [].
Proof.
  pose proof (accept_error_is_returned
                (boot restored_config failing_world)
                (net.PlainError "too many open files") eq_refl) as H.
  destruct H as (Hr & _ & _ & _ & Hp & _).
  split; [exact Hr | exact Hp].
Defined.

(** A registered callback, an inherited socket: [Close] notifies, closes
    the socket and returns what closing returned. *)
Lemma Close_notifies_then_closes_witness :
  let s := after [OpSetListenerCallbacks (Some quiet_callback)]
                 (boot restored_config small_world) in
  evs (Close s) = [EvOnClose 1; EvRawClose (Some {| net.fd := 3 |})]
  /\ res (Close s) = Returned None.
Proof.
  pose proof (Close_notifies_then_closes
                (after [OpSetListenerCallbacks (Some quiet_callback)]
                       (boot restored_config small_world))
                quiet_callback eq_refl) as H.
  destruct H as (_ & _ & H).
  destruct (H eq_refl) as (He & _ & Hr & _ & _).
  split; [exact He | exact Hr].
Defined.

(** Without an inherited listener, the first [Start] enters [listen]
    first, and once. *)
Lemma listen_only_without_inherited_listener_witness :
  exists rest,
    evs (Start HEAD 3 []
           (after [OpSetListenerCallbacks (Some quiet_callback)]
                  (boot fresh_config small_world)))
    = EvListen :: rest
    /\ count is_EvListen rest = 0.
Proof.
  exact (proj2 (listen_only_without_inherited_listener
                  fresh_config small_world
                  [OpSetListenerCallbacks (Some quiet_callback)] HEAD 3 [])
               eq_refl).
Defined.

(** ** The model at work *)

(** A first [Start] on the [HEAD] side: a socket is bound, connection 7
    is accepted and handed to a goroutine, the next [Accept] fails and is
    logged, the third waits. *)
Example Start_HEAD_fresh :
  let r := Start HEAD 5 [] (boot fresh_config small_world) in
  res r = Blocked
  /\ evs r =
       [ EvListen;
         EvListenTCP (Some {| net.IP := "127.0.0.1"; net.Port := 443 |});
         EvAccept (Some {| net.fd := 5 |}); EvAccepted 7; EvGo (GoOnAccept 7);
         EvAccept (Some {| net.fd := 5 |});
         EvLog "unknown error while listener accepting:too many open files";
         EvAccept (Some {| net.fd := 5 |}) ]
  /\ pending (post r) = [GoOnAccept 7]
  /\ rawl (lis (post r)) = Some {| net.fd := 5 |}.
Proof. repeat split. Qed.

(** The [master] side reads the nil error after the first connection. *)
Example Start_master_fresh :
  let r := Start master 5 [] (boot fresh_config small_world) in
  res r = Panicked nil_dereference
  /\ count is_Accept (evs r) = 2
  /\ pending (post r) = [GoOnAccept 7].
Proof. repeat split. Qed.

(** [Stop] ends the loop of the [HEAD] side at the next [Accept]. *)
Example Stop_ends_loop :
  history [OpStop; OpStart HEAD 5 []] (boot restored_config small_world)
  = [ EvSetDeadline (Some {| net.fd := 3 |});
      EvAccept (Some {| net.fd := 3 |});
      EvLog "listener ingress stop accepting connections by deadline" ].
Proof. reflexivity. Qed.

(** Without a registered callback the goroutine's call panics, the
    panic is recovered and printed, and [OnAccept] is not called. *)
Example goroutine_without_callback :
  history [OpStart HEAD 1 []; OpSchedule 0] (boot restored_config small_world)
  = [ EvAccept (Some {| net.fd := 3 |}); EvAccepted 7; EvGo (GoOnAccept 7);
      EvPrint ("panic " ++ nil_dereference)%string; EvPrint EmptyString; EvPrintStack ].
Proof. reflexivity. Qed.

(** Without a registered callback [Close] panics before anything
    happens. *)
Example Close_without_callback :
  let r := Close (boot restored_config small_world) in
  res r = Panicked nil_dereference /\ evs r = [].
Proof. split; reflexivity. Qed.

(** ** [listen] and [Start], case by case *)

Lemma listen_result (s : Sys) :
  listen s
  = match localAddress (lis s) with
    | Some (net.TCPAddrPtr a) =>
        match listening (world s) a with
        | inl rl =>
            mkResult (Returned None)
                     (mkSys (set_rawl (Some rl) (lis s)) (world s) (pending s))
                     [EvListen; EvListenTCP a]
        | inr err => mkResult (Returned (Some err)) s [EvListen; EvListenTCP a]
        end
    | _ => mkResult (Panicked bad_conversion) s [EvListen]
    end.
Proof.
  unfold listen, net_ListenTCP, bind, emit, get_l, get_w, put_l, ret, panic.
  simpl.
  destruct (localAddress (lis s)) as [[a | n a] |]; simpl; try reflexivity.
  destruct (listening (world s) a); reflexivity.
Qed.

Lemma bind_returned {A B} (c : M A) (k : A -> M B) (s : Sys) a s1 e1 :
  c s = mkResult (Returned a) s1 e1 ->
  res (bind c k s) = res (k a s1)
  /\ post (bind c k s) = post (k a s1)
  /\ evs (bind c k s) = e1 ++ evs (k a s1).
Proof. intro E. unfold bind. rewrite E. repeat split. Qed.

Lemma bind_panicked {A B} (c : M A) (k : A -> M B) (s : Sys) v s1 e1 :
  c s = mkResult (Panicked v) s1 e1 ->
  res (bind c k s) = Panicked v
  /\ post (bind c k s) = s1
  /\ evs (bind c k s) = e1.
Proof. intro E. unfold bind. rewrite E. repeat split. Qed.

Lemma listen_step_result (s : Sys) :
  (e <- listen ;;
   match e with
   | Some err =>
       l' <- get_l ;;
       log (name l' ++ " listen failed, " ++ " " ++ net.Error err) ;;;
       ret false
   | None => ret true
   end) s
  = match localAddress (lis s) with
    | Some (net.TCPAddrPtr a) =>
        match listening (world s) a with
        | inl rl =>
            mkResult (Returned true)
                     (mkSys (set_rawl (Some rl) (lis s)) (world s) (pending s))
                     [EvListen; EvListenTCP a]
        | inr err =>
            mkResult (Returned false) s
                     [EvListen; EvListenTCP a;
                      EvLog (name (lis s) ++ " listen failed, " ++ " " ++ net.Error err)]
        end
    | _ => mkResult (Panicked bad_conversion) s [EvListen]
    end.
Proof.
  unfold bind at 1. rewrite listen_result.
  destruct (localAddress (lis s)) as [[a | n a] |];
    [destruct (listening (world s) a) as [rl | err] | |]; reflexivity.
Qed.

Lemma Start_with_socket sd fuel ch s t :
  rawl (lis s) = Some t ->
  res (Start sd fuel ch s) = res (serve sd fuel ch s)
  /\ post (Start sd fuel ch s) = post (serve sd fuel ch s)
  /\ evs (Start sd fuel ch s) = evs (serve sd fuel ch s).
Proof.
  intro Hr. unfold Start.
  rewrite res_get_l, post_get_l, evs_get_l, Hr.
  rewrite res_bind, post_bind, evs_bind. cbn [ret res post evs app].
  repeat split.
Qed.

Lemma Start_without_socket sd fuel ch s :
  rawl (lis s) = None ->
  match localAddress (lis s) with
  | Some (net.TCPAddrPtr a) =>
      match listening (world s) a with
      | inl rl =>
          let s1 := mkSys (set_rawl (Some rl) (lis s)) (world s) (pending s) in
          res (Start sd fuel ch s) = res (serve sd fuel ch s1)
          /\ post (Start sd fuel ch s) = post (serve sd fuel ch s1)
          /\ evs (Start sd fuel ch s)
             = EvListen :: EvListenTCP a :: evs (serve sd fuel ch s1)
      | inr err =>
          res (Start sd fuel ch s) = Returned tt
          /\ post (Start sd fuel ch s) = s
          /\ evs (Start sd fuel ch s)
             = [EvListen; EvListenTCP a;
                EvLog (name (lis s) ++ " listen failed, " ++ " " ++ net.Error err)]
      end
  | _ =>
      res (Start sd fuel ch s) = Panicked bad_conversion
      /\ post (Start sd fuel ch s) = s
      /\ evs (Start sd fuel ch s) = [EvListen]
  end.
Proof.
  intro Hr. unfold Start.
  rewrite res_get_l, post_get_l, evs_get_l, Hr.
  pose proof (listen_step_result s) as E.
  destruct (localAddress (lis s)) as [[a | n a] |];
    [destruct (listening (world s) a) as [rl | err] | |];
    match goal with
    | |- context [res (bind ?c ?k s)] =>
        first [ destruct (bind_returned c k s _ _ _ E) as (-> & -> & ->)
              | destruct (bind_panicked c k s _ _ _ E) as (-> & -> & ->) ]
    end;
    cbn [ret res post evs app]; repeat split.
Qed.

(** ** Calls that respect a relation closed under sequencing *)

Section Respects.

Variable R : Sys -> list event -> Sys -> Prop.

Hypothesis R_refl : forall s, R s [] s.
Hypothesis R_trans :
  forall s e1 s1 e2 s2, R s e1 s1 -> R s1 e2 s2 -> R s (e1 ++ e2) s2.

Lemma respects_ret {A} (a : A) : respects R (ret a).
Proof. intro s. apply R_refl. Qed.

Lemma respects_out_of_fuel {A} : respects R (@out_of_fuel A).
Proof. intro s. apply R_refl. Qed.

Lemma respects_panic {A} (v : string) : respects R (@panic A v).
Proof. intro s. apply R_refl. Qed.

Lemma respects_bind {A B} (c : M A) (k : A -> M B) :
  respects R c -> (forall a, respects R (k a)) -> respects R (bind c k).
Proof.
  intros Hc Hk s. specialize (Hc s).
  rewrite evs_bind, post_bind.
  destruct (res (c s)) as [a | v | |]; try (rewrite app_nil_r; exact Hc).
  exact (R_trans _ _ _ _ _ Hc (Hk a (post (c s)))).
Qed.

Lemma respects_get_l {A} (k : listener -> M A) :
  (forall l, respects R (k l)) -> respects R (bind get_l k).
Proof. intros Hk s. exact (Hk (lis s) s). Qed.

Hypothesis R_accept : respects R accept.
Hypothesis R_log : forall msg, respects R (log msg).

Lemma respects_not_temp_timeout err : respects R (not_temp_timeout err).
Proof.
  unfold not_temp_timeout.
  destruct (negb (net.Timeout err && net.Temporary err));
    [apply R_log | apply respects_ret].
Qed.

Lemma respects_accept_loop_HEAD fuel : respects R (accept_loop_HEAD fuel).
Proof.
  induction fuel as [| n IH]; simpl; [apply respects_out_of_fuel |].
  apply respects_bind; [exact R_accept |].
  intros [err |]; [| exact IH].
  destruct (net.is_net_Error err && net.Timeout err).
  - apply respects_get_l. intro l. apply R_log.
  - destruct (net.is_OpError err);
      (apply respects_bind; [| intros _; exact IH]).
    + apply respects_not_temp_timeout.
    + apply R_log.
Qed.

Lemma respects_accept_loop_master fuel :
  forall ch, respects R (accept_loop_master fuel ch).
Proof.
  induction fuel as [| n IH]; intros ch; simpl; [apply respects_out_of_fuel |].
  assert (Hgo : respects R
            (e <- accept ;;
             match e with
             | Some err =>
                 (if net.is_OpError err then not_temp_timeout err
                  else unknown_error (net.Error err)) ;;;
                 accept_loop_master n (tl ch)
             | None => panic nil_dereference
             end)).
  { apply respects_bind; [exact R_accept |].
    intros [err |]; [| apply respects_panic].
    apply respects_bind; [| intros _; apply IH].
    destruct (net.is_OpError err);
      [apply respects_not_temp_timeout | apply R_log]. }
  destruct ch as [| [|] ch']; try exact Hgo.
  apply respects_get_l. intro l. apply R_log.
Qed.

Lemma respects_serve sd fuel ch : respects R (serve sd fuel ch).
Proof.
  unfold serve. apply respects_get_l. intro l.
  destruct (bindToPort l); [| apply respects_ret].
  destruct sd; simpl;
    [apply respects_accept_loop_HEAD | apply respects_accept_loop_master].
Qed.

End Respects.

Lemma accepted_app (a b : list event) :
  accepted (a ++ b) = accepted a ++ accepted b.
Proof. unfold accepted. apply flat_map_app. Qed.

Lemma started_per_accept_serve sd fuel ch :
  respects started_per_accept (serve sd fuel ch).
Proof.
  apply respects_serve.
  - intro s. unfold started_per_accept. simpl. rewrite app_nil_r. reflexivity.
  - intros s e1 s1 e2 s2 H1 H2. unfold started_per_accept in *.
    rewrite H2, H1, accepted_app, map_app, app_assoc. reflexivity.
  - intro s. unfold started_per_accept.
    rewrite accept_evs. destruct (accept_post s) as [_ Hp]. rewrite Hp.
    destruct (res (raw_Accept (rawl (lis s)) s)) as [[c | e] | | |];
      simpl; rewrite ?app_nil_r; reflexivity.
  - intros msg s. unfold started_per_accept. simpl.
    rewrite app_nil_r. reflexivity.
Qed.

Lemma on_held_socket_serve sd fuel ch :
  respects on_held_socket (serve sd fuel ch).
Proof.
  apply respects_serve.
  - intros s t Ht. split; [exact Ht | constructor].
  - intros s e1 s1 e2 s2 H1 H2 t Ht.
    destruct (H1 t Ht) as [Ht1 F1]. destruct (H2 t Ht1) as [Ht2 F2].
    split; [exact Ht2 | apply Forall_app; split; assumption].
  - intros s t Ht. destruct (accept_post s) as [Hl _].
    rewrite Hl, accept_evs, Ht. split; [reflexivity |].
    destruct (res (raw_Accept (Some t) s)) as [[c | e] | | |];
      repeat constructor.
  - intros msg s t Ht. split; [exact Ht | repeat constructor].
Qed.

(** X5.  A raw socket, once the listener holds one (inherited or bound
    by an earlier [Start]), is never replaced and nothing is bound
    again: after any history the listener holds the same socket, also
    after [Close], and the history holds no call of [listen] or
    [net.ListenTCP]. *)
Theorem socket_is_never_replaced
  (s : Sys) (rl : net.TCPListener) (ops : list op) :
  rawl (lis s) = Some rl ->
  rawl (lis (after ops s)) = Some rl
  /\ count is_listen (history ops s) = 0.
Proof.
  intro Hr.
  destruct (framed_run (holds_socket (Some rl)) no_listen) with (ops := ops) (s := s)
    as [H1 H2].
  - intros e He. exact He.
  - intros c l Hl. exact Hl.
  - left. intros l Hl. unfold holds_socket in Hl. congruence.
  - exact Hr.
  - split; [exact H1 | apply count_none; exact H2].
Qed.

Lemma socket_is_never_replaced_witness :
  rawl (lis (after [OpClose; OpStart HEAD 2 []; OpStop]
                   (boot restored_config small_world)))
  = Some {| net.fd := 3 |}
  /\ count is_listen
       (history [OpClose; OpStart HEAD 2 []; OpStop]
                (boot restored_config small_world)) = 0.
Proof.
  exact (socket_is_never_replaced (boot restored_config small_world)
           {| net.fd := 3 |} [OpClose; OpStart HEAD 2 []; OpStop] eq_refl).
Defined.

Lemma serve_no_listen sd fuel ch s rl :
  rawl (lis s) = Some rl ->
  rawl (lis (post (serve sd fuel ch s))) = Some rl
  /\ Forall no_listen (evs (serve sd fuel ch s)).
Proof.
  intro Hr.
  assert (H : framed (holds_socket (Some rl)) no_listen (serve sd fuel ch)).
  { unfold serve. apply framed_get_l; intros l Hl.
    destruct (bindToPort l); [| apply framed_ret].
    apply framed_accept_loop. intros e He. exact He. }
  exact (H s Hr).
Qed.

(** X6.  A first [Start] with a TCP address for which [net.ListenTCP]
    returns a socket: [Start] enters [listen], binds that address, and
    the listener holds the returned socket from then on; nothing else in
    this [Start] binds anything. *)
Theorem Start_binds_socket
  (sd : side) (fuel : nat) (stopChan : list bool) (s : Sys)
  (a : option net.TCPAddr) (rl : net.TCPListener) :
  rawl (lis s) = None ->
  localAddress (lis s) = Some (net.TCPAddrPtr a) ->
  listening (world s) a = inl rl ->
  let r := Start sd fuel stopChan s in
  rawl (lis (post r)) = Some rl
  /\ exists rest,
       evs r = EvListen :: EvListenTCP a :: rest
       /\ count is_listen rest = 0.
Proof.
  intros Hr Ha Hl r. subst r.
  pose proof (Start_without_socket sd fuel stopChan s Hr) as H.
  rewrite Ha, Hl in H. cbv zeta in H. destruct H as (_ & Hp & He).
  rewrite Hp, He.
  destruct (serve_no_listen sd fuel stopChan
              (mkSys (set_rawl (Some rl) (lis s)) (world s) (pending s)) rl eq_refl)
    as [H1 H2].
  split; [exact H1 |].
  eexists. split; [reflexivity | apply count_none; exact H2].
Qed.

Lemma Start_binds_socket_witness :
  rawl (lis (post (Start HEAD 3 [] (boot fresh_config small_world))))
  = Some {| net.fd := 5 |}
  /\ exists rest,
       evs (Start HEAD 3 [] (boot fresh_config small_world))
       = EvListen
         :: EvListenTCP (Some {| net.IP := "127.0.0.1"; net.Port := 443 |})
         :: rest
       /\ count is_listen rest = 0.
Proof.
  exact (Start_binds_socket HEAD 3 [] (boot fresh_config small_world)
           (Some {| net.IP := "127.0.0.1"; net.Port := 443 |})
           {| net.fd := 5 |} eq_refl eq_refl eq_refl).
Defined.

(** X7.  A first [Start] for which [net.ListenTCP] fails: [Start] logs
    the listener's name with the error and returns; it calls [Accept]
    never, whatever [bindToPort] says, and leaves the system as it was
    (no socket held, so that a later [Start] tries to bind again). *)
Theorem Start_returns_when_listen_fails
  (sd : side) (fuel : nat) (stopChan : list bool) (s : Sys)
  (a : option net.TCPAddr) (err : net.error) :
  rawl (lis s) = None ->
  localAddress (lis s) = Some (net.TCPAddrPtr a) ->
  listening (world s) a = inr err ->
  let r := Start sd fuel stopChan s in
  res r = Returned tt
  /\ post r = s
  /\ evs r = [EvListen; EvListenTCP a;
              EvLog (name (lis s) ++ " listen failed, " ++ " " ++ net.Error err)%string]
  /\ count is_Accept (evs r) = 0
  /\ exists rest, evs (Start sd fuel stopChan (post r)) = EvListen :: rest.
Proof.
  intros Hr Ha Hl r. subst r.
  pose proof (Start_without_socket sd fuel stopChan s Hr) as H.
  rewrite Ha, Hl in H. destruct H as (H1 & H2 & H3).
  rewrite H1, H2, H3. repeat split.
  eexists. reflexivity.
Qed.

Lemma Start_returns_when_listen_fails_witness :
  let s := mkSys (NewListener fresh_config)
                 (mkWorld (fun _ => inr (net.PlainError "address already in use"))
                          [inl 7] (fun _ => None) (fun t => inl (net.fd t)) [] [])
                 [] in
  res (Start HEAD 3 [] s) = Returned tt
  /\ count is_Accept (evs (Start HEAD 3 [] s)) = 0.
Proof.
  pose proof (Start_returns_when_listen_fails HEAD 3 []
                (mkSys (NewListener fresh_config)
                       (mkWorld (fun _ => inr (net.PlainError "address already in use"))
                                [inl 7] (fun _ => None) (fun t => inl (net.fd t)) [] [])
                       [])
                (Some {| net.IP := "127.0.0.1"; net.Port := 443 |})
                (net.PlainError "address already in use")
                eq_refl eq_refl eq_refl) as H.
  destruct H as (H1 & _ & _ & H4 & _).
  split; [exact H1 | exact H4].
Defined.

(** X8.  A first [Start] of a listener whose address is not a
    [*net.TCPAddr] (another kind of address, or no address): the type
    assertion in [listen] panics before [net.ListenTCP] is called;
    nothing is bound, nothing is accepted, the system is unchanged. *)
Theorem Start_panics_on_non_TCP_address
  (sd : side) (fuel : nat) (stopChan : list bool) (s : Sys) :
  rawl (lis s) = None ->
  (forall a, localAddress (lis s) <> Some (net.TCPAddrPtr a)) ->
  let r := Start sd fuel stopChan s in
  res r = Panicked bad_conversion
  /\ post r = s
  /\ evs r = [EvListen].
Proof.
  intros Hr Ha r. subst r.
  pose proof (Start_without_socket sd fuel stopChan s Hr) as H.
  destruct (localAddress (lis s)) as [[a | n a] |]; try exact H.
  elim (Ha a). reflexivity.
Qed.

Lemma Start_panics_on_non_TCP_address_witness :
  let s := mkSys (mkListener "unix" (Some (net.OtherAddr "unix" "/tmp/mosn.sock"))
                             true 0%N 0%N false None None)
                 small_world [] in
  res (Start HEAD 3 [] s) = Panicked bad_conversion
  /\ post (Start HEAD 3 [] s) = s
  /\ evs (Start HEAD 3 [] s) = [EvListen].
Proof.
  apply (Start_panics_on_non_TCP_address HEAD 3 []
           (mkSys (mkListener "unix" (Some (net.OtherAddr "unix" "/tmp/mosn.sock"))
                              true 0%N 0%N false None None)
                  small_world [])).
  - reflexivity.
  - intros a H. discriminate H.
Defined.

Lemma serve_unbound sd fuel ch s :
  bindToPort (lis s) = false ->
  res (serve sd fuel ch s) = Returned tt
  /\ post (serve sd fuel ch s) = s
  /\ evs (serve sd fuel ch s) = [].
Proof.
  intro Hb. unfold serve.
  rewrite res_get_l, post_get_l, evs_get_l, Hb. repeat split.
Qed.

(** X9.  A listener configured with [BindToPort] false never accepts:
    at any point of its life a [Start] calls [Accept] never, starts no
    goroutine, and ends (it returns, or panics in [listen] on an address
    that is not a TCP address) without entering the loop. *)
Theorem Start_without_BindToPort_accepts_nothing
  (lc : v2.ListenerConfig) (w : World) (before : list op)
  (sd : side) (fuel : nat) (stopChan : list bool) :
  v2.BindToPort lc = false ->
  let s := after before (boot lc w) in
  let r := Start sd fuel stopChan s in
  count is_Accept (evs r) = 0
  /\ count is_Go (evs r) = 0
  /\ pending (post r) = pending s
  /\ (res r = Returned tt \/ res r = Panicked bad_conversion).
Proof.
  intros Hb s r.
  assert (Hbs : bindToPort (lis s) = false).
  { destruct (config_kept lc w before) as (_ & _ & H & _).
    fold s in H. rewrite H. exact Hb. }
  subst r. destruct (rawl (lis s)) as [t |] eqn:Hr.
  - destruct (Start_with_socket sd fuel stopChan s t Hr) as (H1 & H2 & H3).
    destruct (serve_unbound sd fuel stopChan s Hbs) as (S1 & S2 & S3).
    rewrite H1, H2, H3, S1, S2, S3. repeat split. left. reflexivity.
  - pose proof (Start_without_socket sd fuel stopChan s Hr) as H.
    destruct (localAddress (lis s)) as [[a | n a] |];
      [destruct (listening (world s) a) as [rl | err] | |];
      cbv zeta in H; destruct H as (H1 & H2 & H3); rewrite H1, H2, H3.
    + destruct (serve_unbound sd fuel stopChan
                  (mkSys (set_rawl (Some rl) (lis s)) (world s) (pending s)) Hbs)
        as (S1 & S2 & S3).
      rewrite S1, S2, S3. repeat split. left. reflexivity.
    + repeat split. left. reflexivity.
    + repeat split. right. reflexivity.
    + repeat split. right. reflexivity.
Qed.

Lemma Start_without_BindToPort_accepts_nothing_witness :
  let lc := {| v2.Name := "admin";
               v2.Addr := Some (net.TCPAddrPtr None);
               v2.BindToPort := false;
               v2.ListenerTag := 3%N;
               v2.PerConnBufferLimitBytes := 0%N;
               v2.HandOffRestoredDestinationConnections := false;
               v2.InheritListener := None |} in
  count is_Accept (evs (Start HEAD 4 [] (after [] (boot lc small_world)))) = 0.
Proof.
  exact (proj1 (Start_without_BindToPort_accepts_nothing
                  {| v2.Name := "admin";
                     v2.Addr := Some (net.TCPAddrPtr None);
                     v2.BindToPort := false;
                     v2.ListenerTag := 3%N;
                     v2.PerConnBufferLimitBytes := 0%N;
                     v2.HandOffRestoredDestinationConnections := false;
                     v2.InheritListener := None |}
                  small_world [] HEAD 4 [] eq_refl)).
Defined.

(** X10.  [Start] never calls [Accept] on a nil socket: every [Accept]
    of a [Start], from any system, on either side and for any number of
    iterations, is on a socket, and on the one the listener holds when
    [Start] ends. *)
Theorem Start_accepts_only_on_its_socket
  (sd : side) (fuel : nat) (stopChan : list bool) (s : Sys) :
  let r := Start sd fuel stopChan s in
  Forall (fun e => match e with
                   | EvAccept x => x <> None /\ x = rawl (lis (post r))
                   | _ => True
                   end) (evs r).
Proof.
  intro r. subst r.
  assert (Hserve : forall s1 t,
             rawl (lis s1) = Some t ->
             Forall (fun e => match e with
                              | EvAccept x =>
                                  x <> None
                                  /\ x = rawl (lis (post (serve sd fuel stopChan s1)))
                              | _ => True
                              end) (evs (serve sd fuel stopChan s1))).
  { intros s1 t Ht.
    destruct (on_held_socket_serve sd fuel stopChan s1 t Ht) as [Hp Hf].
    rewrite Hp. eapply Forall_impl; [| exact Hf].
    intros [] He; try exact I. simpl in He. subst. split; [discriminate | reflexivity]. }
  destruct (rawl (lis s)) as [t |] eqn:Hr.
  - destruct (Start_with_socket sd fuel stopChan s t Hr) as (_ & H2 & H3).
    rewrite H2, H3. exact (Hserve s t Hr).
  - pose proof (Start_without_socket sd fuel stopChan s Hr) as H.
    destruct (localAddress (lis s)) as [[a | n a] |];
      [destruct (listening (world s) a) as [rl | err] | |];
      cbv zeta in H; destruct H as (_ & H2 & H3); rewrite H2, H3;
      repeat (constructor; [exact I |]); try constructor.
    exact (Hserve (mkSys (set_rawl (Some rl) (lis s)) (world s) (pending s))
                  rl eq_refl).
Qed.

(** X11.  [Start] hands every accepted connection to exactly one new
    goroutine, in the order accepted, and starts no other: whatever way
    [Start] ends, the goroutines started and not yet run are the ones
    there were, followed by one per connection [Accept] returned. *)
Theorem Start_starts_one_goroutine_per_connection
  (sd : side) (fuel : nat) (stopChan : list bool) (s : Sys) :
  let r := Start sd fuel stopChan s in
  pending (post r) = pending s ++ map GoOnAccept (accepted (evs r))
  /\ count is_Go (evs r) = List.length (accepted (evs r)).
Proof.
  intro r. subst r.
  assert (Hgo : forall s1,
             count is_Go (evs (serve sd fuel stopChan s1))
             = List.length (accepted (evs (serve sd fuel stopChan s1)))).
  { intro s1.
    apply (respects_serve
             (fun _ tr _ => count is_Go tr = List.length (accepted tr))).
    - intros _. reflexivity.
    - intros _ e1 _ e2 _ H1 H2.
      rewrite count_app, accepted_app, length_app, H1, H2. reflexivity.
    - intro s2. rewrite accept_evs.
      destruct (res (raw_Accept (rawl (lis s2)) s2)) as [[c | e] | | |];
        reflexivity.
    - intros msg s2. reflexivity. }
  destruct (rawl (lis s)) as [t |] eqn:Hr.
  - destruct (Start_with_socket sd fuel stopChan s t Hr) as (_ & H2 & H3).
    rewrite H2, H3.
    split; [apply started_per_accept_serve | apply Hgo].
  - pose proof (Start_without_socket sd fuel stopChan s Hr) as H.
    destruct (localAddress (lis s)) as [[a | n a] |];
      [destruct (listening (world s) a) as [rl | err] | |];
      cbv zeta in H; destruct H as (_ & H2 & H3); rewrite H2, H3;
      try (split; [simpl; rewrite app_nil_r; reflexivity | reflexivity]).
    split.
    + exact (started_per_accept_serve sd fuel stopChan
               (mkSys (set_rawl (Some rl) (lis s)) (world s) (pending s))).
    + exact (Hgo (mkSys (set_rawl (Some rl) (lis s)) (world s) (pending s))).
Qed.

(** ** The loop of the [HEAD] side, iteration by iteration *)

Lemma is_in_head (t : net.TCPListener) (ts : list net.TCPListener) :
  is_in t (t :: ts) = true.
Proof.
  unfold is_in, net.TCPListener_eqb. simpl. rewrite Nat.eqb_refl. reflexivity.
Qed.

Lemma accept_live (s : Sys) (t : net.TCPListener)
      (a : net.Conn + net.error) (q : list (net.Conn + net.error)) :
  rawl (lis s) = Some t ->
  live t (world s) = true ->
  incoming (world s) = a :: q ->
  accept s
  = mkResult
      (match a with inl _ => Returned None | inr err => Returned (Some err) end)
      (mkSys (lis s) (with_incoming (world s) q)
             (match a with
              | inl c => pending s ++ [GoOnAccept c]
              | inr _ => pending s
              end))
      (match a with
       | inl c => [EvAccept (Some t); EvAccepted c; EvGo (GoOnAccept c)]
       | inr _ => [EvAccept (Some t)]
       end).
Proof.
  intros Hr Hl Hi. unfold live in Hl.
  apply andb_true_iff in Hl. destruct Hl as [Hc He].
  apply negb_true_iff in Hc. apply negb_true_iff in He.
  unfold accept, raw_Accept, bind, emit, get_l, get_w, put_w, go, ret.
  simpl. rewrite Hr. simpl. rewrite Hc, He, Hi.
  destruct a; reflexivity.
Qed.

Lemma accept_expired (s : Sys) (t : net.TCPListener) :
  rawl (lis s) = Some t ->
  is_in t (closed (world s)) = false ->
  is_in t (expired (world s)) = true ->
  accept s = mkResult (Returned (Some net.ErrDeadline)) s [EvAccept (Some t)].
Proof.
  intros Hr Hc He.
  unfold accept, raw_Accept, bind, emit, get_l, get_w, ret.
  simpl. rewrite Hr. simpl. rewrite Hc, He. reflexivity.
Qed.

Lemma accept_closed (s : Sys) (t : net.TCPListener) :
  rawl (lis s) = Some t ->
  is_in t (closed (world s)) = true ->
  accept s = mkResult (Returned (Some net.ErrClosed)) s [EvAccept (Some t)].
Proof.
  intros Hr Hc.
  unfold accept, raw_Accept, bind, emit, get_l, get_w, ret.
  simpl. rewrite Hr. simpl. rewrite Hc. reflexivity.
Qed.

Lemma HEAD_step (n : nat) (s : Sys) (e : option net.error) (s1 : Sys)
      (ev : list event) :
  accept s = mkResult (Returned e) s1 ev ->
  let k :=
    match e with
    | Some err =>
        if stops_HEAD err then
          l <- get_l ;; log (deadline_message l)
        else if net.is_OpError err then
          not_temp_timeout err ;;; accept_loop_HEAD n
        else
          unknown_error (net.Error err) ;;; accept_loop_HEAD n
    | None => accept_loop_HEAD n
    end in
  res (accept_loop_HEAD (S n) s) = res (k s1)
  /\ post (accept_loop_HEAD (S n) s) = post (k s1)
  /\ evs (accept_loop_HEAD (S n) s) = ev ++ evs (k s1).
Proof.
  intros E k.
  exact (bind_returned accept _ s e s1 ev E).
Qed.

Lemma logged_then (c : M unit) (k : M unit) (s : Sys) (le : list event) :
  c s = mkResult (Returned tt) s le ->
  res ((c ;;; k) s) = res (k s)
  /\ post ((c ;;; k) s) = post (k s)
  /\ evs ((c ;;; k) s) = le ++ evs (k s).
Proof. intro E. exact (bind_returned c (fun _ => k) s tt s le E). Qed.

Lemma not_temp_timeout_result (err : net.error) (s : Sys) :
  exists le,
    not_temp_timeout err s = mkResult (Returned tt) s le
    /\ accepted le = [] /\ count is_EvAccept le = 0.
Proof.
  unfold not_temp_timeout.
  destruct (negb (net.Timeout err && net.Temporary err));
    eexists; repeat split.
Qed.

(** X12.  The loop of the [HEAD] side serves until the first timeout:
    on a live socket whose [Accept] answers with connections and errors
    that are no timeouts, followed by an error that is a [net.Error]
    with [Timeout()], the loop (given as many iterations) returns; it
    has called [Accept] once per answer and once for the timeout, has
    started one goroutine per connection, in order, and has consumed
    exactly these answers.  No error before the timeout stops it. *)
Theorem HEAD_loop_serves_until_timeout
  (t : net.TCPListener) (stop : net.error) (rest : list (net.Conn + net.error))
  (pre : list (net.Conn + net.error)) :
  forall (fuel : nat) (s : Sys),
    rawl (lis s) = Some t ->
    live t (world s) = true ->
    incoming (world s) = pre ++ inr stop :: rest ->
    forallb goes_on pre = true ->
    stops_HEAD stop = true ->
    List.length pre < fuel ->
    let r := accept_loop_HEAD fuel s in
    res r = Returned tt
    /\ lis (post r) = lis s
    /\ pending (post r) = pending s ++ map GoOnAccept (conns pre)
    /\ incoming (world (post r)) = rest
    /\ accepted (evs r) = conns pre
    /\ count is_EvAccept (evs r) = S (List.length pre).
Proof.
  induction pre as [| a pre IH]; intros fuel s Hr Hl Hi Hpre Hstop Hfuel r;
    subst r; (destruct fuel as [| n]; [inversion Hfuel |]).
  - simpl in Hi.
    destruct (HEAD_step n s _ _ _ (accept_live s t _ _ Hr Hl Hi)) as (H1 & H2 & H3).
    rewrite H1, H2, H3, Hstop. cbn [conns flat_map map].
    rewrite app_nil_r. repeat split.
  - simpl in Hi, Hpre. apply andb_true_iff in Hpre. destruct Hpre as [Ha Hpre].
    assert (Hfuel' : List.length pre < n) by (simpl in Hfuel; lia).
    destruct a as [c | err];
      destruct (HEAD_step n s _ _ _ (accept_live s t _ _ Hr Hl Hi)) as (H1 & H2 & H3);
      rewrite H1, H2, H3; clear H1 H2 H3.
    + destruct (IH n (mkSys (lis s)
                            (with_incoming (world s) (pre ++ inr stop :: rest))
                            (pending s ++ [GoOnAccept c]))
                  Hr Hl eq_refl Hpre Hstop Hfuel')
        as (I1 & I2 & I3 & I4 & I5 & I6).
      rewrite I1, I2, I3, I4, accepted_app, count_app, I5, I6.
      cbn [lis pending]. rewrite <- app_assoc. repeat split.
    + set (s1 := mkSys (lis s)
                       (with_incoming (world s) (pre ++ inr stop :: rest))
                       (pending s)).
      destruct (IH n s1 Hr Hl eq_refl Hpre Hstop Hfuel')
        as (I1 & I2 & I3 & I4 & I5 & I6).
      simpl in Ha. apply negb_true_iff in Ha. rewrite Ha.
      destruct (net.is_OpError err).
      * destruct (not_temp_timeout_result err s1) as (le & E & A0 & C0).
        destruct (logged_then _ (accept_loop_HEAD n) s1 le E) as (L1 & L2 & L3).
        rewrite L1, L2, L3, I1, I2, I3, I4.
        rewrite !accepted_app, !count_app, A0, C0, I5, I6.
        repeat split.
      * destruct (logged_then (unknown_error (net.Error err))
                    (accept_loop_HEAD n) s1 _ eq_refl) as (L1 & L2 & L3).
        rewrite L1, L2, L3, I1, I2, I3, I4.
        rewrite !accepted_app, !count_app, I5, I6.
        repeat split.
Qed.

Lemma HEAD_loop_serves_until_timeout_witness :
  let s := mkSys (NewListener restored_config)
                 (mkWorld (fun _ => inr net.EINVAL)
                          [inl 7; inr (net.PlainError "too many open files");
                           inl 8; inr net.ErrDeadline; inl 9]
                          (fun _ => None) (fun t => inl (net.fd t)) [] [])
                 [] in
  res (accept_loop_HEAD 4 s) = Returned tt
  /\ pending (post (accept_loop_HEAD 4 s)) = [GoOnAccept 7; GoOnAccept 8]
  /\ incoming (world (post (accept_loop_HEAD 4 s))) = [inl 9].
Proof.
  pose proof (HEAD_loop_serves_until_timeout
                {| net.fd := 3 |} net.ErrDeadline [inl 9]
                [inl 7; inr (net.PlainError "too many open files"); inl 8]
                4
                (mkSys (NewListener restored_config)
                       (mkWorld (fun _ => inr net.EINVAL)
                                [inl 7; inr (net.PlainError "too many open files");
                                 inl 8; inr net.ErrDeadline; inl 9]
                                (fun _ => None) (fun t => inl (net.fd t)) [] [])
                       [])
                eq_refl eq_refl eq_refl eq_refl eq_refl
                (le_n 4)) as H.
  destruct H as (H1 & _ & H3 & H4 & _).
  split; [exact H1 | split; [exact H3 | exact H4]].
Defined.

(** ** [Stop] *)

Lemma Stop_result (s : Sys) (t : net.TCPListener) :
  rawl (lis s) = Some t ->
  is_in t (closed (world s)) = false ->
  Stop s
  = mkResult (Returned tt)
             (mkSys (lis s)
                    (mkWorld (listening (world s)) (incoming (world s))
                             (closing (world s)) (files (world s))
                             (t :: expired (world s)) (closed (world s)))
                    (pending s))
             [EvSetDeadline (Some t)].
Proof.
  intros Hr Hc.
  unfold Stop, raw_SetDeadline_now, bind, emit, get_l, get_w, put_w, ret.
  simpl. rewrite Hr. simpl. rewrite Hc. reflexivity.
Qed.

(** X13.  [Stop] ends the accept loop of the [HEAD] side: after [Stop]
    on an open socket (an [Accept] after the deadline answers with a
    timeout, as Go's [net] does), a [Start] of a listener that binds to
    its port returns at its first [Accept], with the deadline message as
    its only log; it starts no goroutine and takes no connection from
    those waiting. *)
Theorem Stop_ends_HEAD_loop
  (n : nat) (stopChan : list bool) (s : Sys) (t : net.TCPListener) :
  rawl (lis s) = Some t ->
  is_in t (closed (world s)) = false ->
  bindToPort (lis s) = true ->
  let r := Start HEAD (S n) stopChan (post (Stop s)) in
  res (Stop s) = Returned tt
  /\ res r = Returned tt
  /\ evs r = [EvAccept (Some t); EvLog (deadline_message (lis s))]
  /\ pending (post r) = pending s
  /\ incoming (world (post r)) = incoming (world s).
Proof.
  intros Hr Hc Hb r. subst r.
  rewrite (Stop_result s t Hr Hc). cbn [res post].
  set (s1 := mkSys (lis s)
                   (mkWorld (listening (world s)) (incoming (world s))
                            (closing (world s)) (files (world s))
                            (t :: expired (world s)) (closed (world s)))
                   (pending s)).
  destruct (Start_with_socket HEAD (S n) stopChan s1 t Hr) as (H1 & H2 & H3).
  rewrite H1, H2, H3. unfold serve.
  rewrite res_get_l, post_get_l, evs_get_l.
  change (bindToPort (lis s1)) with (bindToPort (lis s)). rewrite Hb.
  change (accept_loop HEAD (S n) stopChan) with (accept_loop_HEAD (S n)).
  destruct (HEAD_step n s1 _ _ _
              (accept_expired s1 t Hr Hc (is_in_head t (expired (world s)))))
    as (L1 & L2 & L3).
  rewrite L1, L2, L3. repeat split.
Qed.

Lemma Stop_ends_HEAD_loop_witness :
  let s := boot restored_config small_world in
  res (Start HEAD 5 [] (post (Stop s))) = Returned tt
  /\ pending (post (Start HEAD 5 [] (post (Stop s)))) = []
  /\ incoming (world (post (Start HEAD 5 [] (post (Stop s)))))
     = incoming small_world.
Proof.
  pose proof (Stop_ends_HEAD_loop 4 [] (boot restored_config small_world)
                {| net.fd := 3 |} eq_refl eq_refl eq_refl) as H.
  destruct H as (_ & H2 & _ & H4 & H5).
  split; [exact H2 | split; [exact H4 | exact H5]].
Defined.

(** ** Goroutines and the callback *)

(** X14.  No panic leaves the goroutine [accept] starts: whether no
    callback is registered, or [OnAccept] panics, or it returns, the
    goroutine ends normally and leaves the system as it was.  A panic is
    printed with the stack; with no callback registered [OnAccept] is
    not called at all, otherwise it is called once, first. *)
Theorem goroutine_contains_panics (rawc : net.Conn) (s : Sys) :
  let r := run_goroutine (GoOnAccept rawc) s in
  let flag := handOffRestoredDestinationConnections (lis s) in
  res r = Returned tt
  /\ post r = s
  /\ evs r
     = match cb (lis s) with
       | None =>
           [EvPrint ("panic " ++ nil_dereference)%string;
            EvPrint EmptyString; EvPrintStack]
       | Some c =>
           EvOnAccept (cb_id c) rawc flag
           :: match OnAccept c rawc flag with
              | Some v =>
                  [EvPrint ("panic " ++ v)%string; EvPrint EmptyString;
                   EvPrintStack]
              | None => []
              end
       end.
Proof.
  intros r flag. subst r flag. unfold run_goroutine, recovering.
  destruct (cb (lis s)) as [c |] eqn:Hc.
  - rewrite (call_OnAccept_registered rawc s c Hc).
    destruct (OnAccept c rawc _); repeat split.
  - rewrite (call_OnAccept_unregistered rawc s Hc). repeat split.
Qed.

(** X15.  The callback is looked up when the goroutine runs, not when
    the connection is accepted: a connection accepted under any callback
    (or none) and a callback registered afterwards, before the goroutine
    runs, is reported to that later callback, once, with the listener's
    flag. *)
Theorem callback_is_read_when_goroutine_runs
  (s : Sys) (rawc : net.Conn) (late : ListenerEventListener) :
  res (raw_Accept (rawl (lis s)) s) = Returned (inl rawc) ->
  let s1 := post (accept s) in
  let s2 := post (SetListenerCallbacks (Some late) s1) in
  let r := schedule (List.length (pending s)) s2 in
  filter is_OnAccept (evs r)
  = [EvOnAccept (cb_id late) rawc (handOffRestoredDestinationConnections (lis s))]
  /\ res r = Returned tt
  /\ pending (post r) = pending s.
Proof.
  intros Hacc s1 s2 r.
  destruct (accept_post s) as [Hl Hp]. rewrite Hacc in Hp.
  fold s1 in Hl, Hp.
  assert (Hp2 : pending s2 = pending s ++ [GoOnAccept rawc]) by exact Hp.
  assert (Hl2 : lis s2 = set_cb (Some late) (lis s1)) by reflexivity.
  assert (Hn : nth_error (pending s2) (List.length (pending s))
               = Some (GoOnAccept rawc)).
  { rewrite Hp2, nth_error_app2, Nat.sub_diag by lia. reflexivity. }
  subst r. unfold schedule. rewrite Hn.
  set (s3 := mkSys (lis s2) (world s2)
                   (firstn (List.length (pending s)) (pending s2)
                    ++ skipn (S (List.length (pending s))) (pending s2))).
  assert (Hc : cb (lis s3) = Some late) by reflexivity.
  destruct (run_goroutine_registered rawc s3 late Hc) as (He & Hr & Hpost).
  rewrite He, Hr, Hpost. cbn [s3 lis pending].
  rewrite Hl2. cbn [set_cb handOffRestoredDestinationConnections]. rewrite Hl.
  repeat split.
  rewrite Hp2, firstn_app, Nat.sub_diag, firstn_all, skipn_app.
  rewrite skipn_all2 by lia.
  replace (S (List.length (pending s)) - List.length (pending s)) with 1 by lia.
  simpl. rewrite !app_nil_r. reflexivity.
Qed.

Lemma callback_is_read_when_goroutine_runs_witness :
  let s := boot restored_config small_world in
  filter is_OnAccept
         (evs (schedule 0 (post (SetListenerCallbacks (Some quiet_callback)
                                   (post (accept s))))))
  = [EvOnAccept 1 7 true].
Proof.
  exact (proj1 (callback_is_read_when_goroutine_runs
                  (boot restored_config small_world) 7 quiet_callback eq_refl)).
Defined.

(** ** [Close], beyond the first successful call *)

Lemma raw_Close_events (r : option net.TCPListener) (s : Sys) :
  evs (raw_Close r s) = [EvRawClose r].
Proof.
  unfold raw_Close. rewrite evs_bind. simpl.
  destruct r as [t |]; simpl; [| reflexivity].
  destruct (is_in t (closed (world s))); reflexivity.
Qed.

Lemma Close_open (s : Sys) (c : ListenerEventListener) (t : net.TCPListener) :
  cb (lis s) = Some c ->
  OnClose c = None ->
  rawl (lis s) = Some t ->
  is_in t (closed (world s)) = false ->
  Close s
  = mkResult (Returned (closing (world s) t))
             (mkSys (lis s)
                    (mkWorld (listening (world s)) (incoming (world s))
                             (closing (world s)) (files (world s))
                             (expired (world s)) (t :: closed (world s)))
                    (pending s))
             [EvOnClose (cb_id c); EvRawClose (Some t)].
Proof.
  intros Hc Ho Hr Hcl.
  unfold Close, call_OnClose, raw_Close, bind, emit, get_l, get_w, put_w, ret.
  simpl. rewrite Hc. simpl. rewrite Ho. simpl. rewrite Hr. simpl.
  rewrite Hcl. reflexivity.
Qed.

Lemma Close_closed (s : Sys) (c : ListenerEventListener) (t : net.TCPListener) :
  cb (lis s) = Some c ->
  OnClose c = None ->
  rawl (lis s) = Some t ->
  is_in t (closed (world s)) = true ->
  Close s
  = mkResult (Returned (Some net.ErrClosed)) s
             [EvOnClose (cb_id c); EvRawClose (Some t)].
Proof.
  intros Hc Ho Hr Hcl.
  unfold Close, call_OnClose, raw_Close, bind, emit, get_l, get_w, put_w, ret.
  simpl. rewrite Hc. simpl. rewrite Ho. simpl. rewrite Hr. simpl.
  rewrite Hcl. reflexivity.
Qed.

(** X16.  [Close] does not touch the socket unless the notification
    comes back: with no callback registered, or with a callback whose
    [OnClose] panics, [Close] panics, the raw socket's [Close] is not
    called, and the system is as before (the socket stays open). *)
Theorem Close_leaves_socket_when_notification_fails (s : Sys) :
  notification_fails (lis s) = true ->
  let r := Close s in
  (exists v, res r = Panicked v)
  /\ post r = s
  /\ count is_RawClose (evs r) = 0.
Proof.
  intros Hf r. subst r. unfold notification_fails in Hf. unfold Close.
  destruct (cb (lis s)) as [c |] eqn:Hc.
  - destruct (OnClose c) as [v |] eqn:Ho; [| discriminate].
    pose proof (call_OnClose_registered s c Hc) as E. rewrite Ho in E.
    match goal with
    | |- context [res (bind ?c0 ?k s)] =>
        destruct (bind_panicked c0 k s _ _ _ E) as (-> & -> & ->)
    end.
    split; [eexists; reflexivity | split; reflexivity].
  - assert (E : call_OnClose s = mkResult (Panicked nil_dereference) s []).
    { unfold call_OnClose, bind, get_l. simpl. rewrite Hc. reflexivity. }
    match goal with
    | |- context [res (bind ?c0 ?k s)] =>
        destruct (bind_panicked c0 k s _ _ _ E) as (-> & -> & ->)
    end.
    split; [eexists; reflexivity | split; reflexivity].
Qed.

Lemma Close_leaves_socket_when_notification_fails_witness :
  (exists v, res (Close (boot restored_config small_world)) = Panicked v)
  /\ post (Close (boot restored_config small_world))
     = boot restored_config small_world
  /\ count is_RawClose (evs (Close (boot restored_config small_world))) = 0.
Proof.
  exact (Close_leaves_socket_when_notification_fails
           (boot restored_config small_world) eq_refl).
Defined.

(** X17.  [Close] is not guarded against repetition, and a closed
    listener accepts nothing: after a [Close] that returned, a second
    [Close] notifies [OnClose] again, calls the raw [Close] again and
    returns the closed-socket error; an [accept] after the first [Close]
    returns that error and starts no goroutine (a closed socket answers
    every call with the closed-socket error, as Go's [net] does). *)
Theorem Close_twice
  (s : Sys) (c : ListenerEventListener) (t : net.TCPListener) :
  cb (lis s) = Some c ->
  OnClose c = None ->
  rawl (lis s) = Some t ->
  is_in t (closed (world s)) = false ->
  let r1 := Close s in
  let r2 := Close (post r1) in
  let r3 := accept (post r1) in
  res r1 = Returned (closing (world s) t)
  /\ res r2 = Returned (Some net.ErrClosed)
  /\ evs r2 = [EvOnClose (cb_id c); EvRawClose (Some t)]
  /\ count is_OnClose (evs r1 ++ evs r2) = 2
  /\ res r3 = Returned (Some net.ErrClosed)
  /\ pending (post r3) = pending s.
Proof.
  intros Hc Ho Hr Hcl r1 r2 r3. subst r1 r2 r3.
  rewrite (Close_open s c t Hc Ho Hr Hcl). cbn [res post evs].
  set (s1 := mkSys (lis s)
                   (mkWorld (listening (world s)) (incoming (world s))
                            (closing (world s)) (files (world s))
                            (expired (world s)) (t :: closed (world s)))
                   (pending s)).
  rewrite (Close_closed s1 c t Hc Ho Hr (is_in_head t (closed (world s)))).
  rewrite (accept_closed s1 t Hr (is_in_head t (closed (world s)))).
  repeat split.
Qed.

Lemma Close_twice_witness :
  let s := after [OpSetListenerCallbacks (Some quiet_callback)]
                 (boot restored_config small_world) in
  res (Close (post (Close s))) = Returned (Some net.ErrClosed)
  /\ res (accept (post (Close s))) = Returned (Some net.ErrClosed).
Proof.
  pose proof (Close_twice
                (after [OpSetListenerCallbacks (Some quiet_callback)]
                       (boot restored_config small_world))
                quiet_callback {| net.fd := 3 |}
                eq_refl eq_refl eq_refl eq_refl) as H.
  destruct H as (_ & H2 & _ & _ & H5 & _).
  split; [exact H2 | exact H5].
Defined.

Lemma run_app (a b : list op) :
  forall s,
    after (a ++ b) s = after b (after a s)
    /\ history (a ++ b) s = history a s ++ history b (after a s).
Proof.
  unfold after, history.
  induction a as [| o a IH]; intro s; simpl.
  - destruct (run b s); split; reflexivity.
  - specialize (IH (post (exec o s))).
    destruct (run (a ++ b) (post (exec o s))) as [s' tr].
    destruct (run a (post (exec o s))) as [sa tra]. simpl in *.
    destruct IH as [I1 I2]. split; [exact I1 |].
    rewrite I2, app_assoc. reflexivity.
Qed.

(** X18.  [SetListenerCallbacks] replaces the callback: whatever was
    registered or done before, after a last registration of a callback
    [Close] notifies that callback, first and once, and no other. *)
Theorem Close_notifies_latest_callback
  (ops : list op) (s : Sys) (c : ListenerEventListener) :
  let s1 := after (ops ++ [OpSetListenerCallbacks (Some c)]) s in
  let r := Close s1 in
  (exists rest, evs r = EvOnClose (cb_id c) :: rest)
  /\ filter is_OnClose (evs r) = [EvOnClose (cb_id c)].
Proof.
  intros s1 r.
  assert (Hc : cb (lis s1) = Some c).
  { subst s1. destruct (run_app ops [OpSetListenerCallbacks (Some c)] s) as [H _].
    rewrite H. reflexivity. }
  subst r. unfold Close.
  rewrite evs_bind, (call_OnClose_registered s1 c Hc). cbn [res post evs].
  destruct (OnClose c).
  - split; [eexists; reflexivity | reflexivity].
  - rewrite evs_get_l, raw_Close_events.
    split; [eexists; reflexivity | reflexivity].
Qed.

(** ** [ListenerFD] *)


End NetworkFacts.
